(** * A shallow embedding of the interval test and of the comparison of
      version strings (q1.js), and of the geo-distributed LRU cache with
      time expiration (q3.js)

    The cache of q3.js is a doubly linked list of [Node] objects threaded
    through a JavaScript heap, an object used as a key index, one timer per
    entry, and a hub object holding a registry of regional caches.  The
    embedding keeps all of that: nodes, timers and cache objects live in
    stores indexed by references, methods are computations in a state and
    exception monad over the whole heap, and method calls that JavaScript
    resolves on the receiver's class ([this.write] inside [LRU.read]) are
    resolved on the receiver's class here as well. *)

From Stdlib Require Import ZArith Lia.
From stdpp Require Import base option list gmap strings numbers.

Local Open Scope Z_scope.

(** ** q1.js: do two lines on the x axis overlap?

    The numbers of the source are modelled by mathematical integers; the
    function only compares them. *)


(** ** q3.js: values, references and exceptions *)

(** The values a cache stores and a method returns.  [JPair] stands for a
    two-component result such as [(value, found)]. *)
Inductive jsval :=
  | JUndefined
  | JNull
  | JNum (n : Z)
  | JStr (s : string)
  | JBool (b : bool)
  | JPair (a b : jsval).

(** References to nodes, timer handles and references to cache objects. *)
Definition loc := nat.
Definition tid := nat.
Definition oid := nat.

(** What a JavaScript run can throw here.  [Dangling] is never thrown by
    JavaScript: it is the answer of the model when a reference is looked
    up that was never allocated, which no run of the program does. *)
Inductive error := TypeError | ReferenceError | Dangling.

Inductive res (A : Type) :=
  | Ok (a : A)
  | Throw (e : error).
Arguments Ok {A} a.
Arguments Throw {A} e.

(** class Node *)
Module Node.
Record t := mk {
  key : string;
  val : jsval;
  prev : option loc;
  next : option loc;
  timeout : tid
}.
Definition set_prev (n : t) (p : option loc) : t :=
  mk (key n) (val n) p (next n) (timeout n).
Definition set_next (n : t) (p : option loc) : t :=
  mk (key n) (val n) (prev n) p (timeout n).
End Node.

(** A pending [setTimeout]: the closure [() => this.remove(key)] is the pair
    of the cache it closes over and the key; [delay] is the second argument
    of [setTimeout] and [armed] the clock when it was called. *)
Module Timer.
Record t := mk {
  obj : oid;
  key : string;
  delay : Z;
  armed : Z
}.
End Timer.

(** The classes of q3.js.  [GlobalLRU] adds the registry [lrus], an object
    whose keys are enumerated in insertion order; [CanadaLRU] and [USALRU]
    add [lruKey] and [globalLRU]. *)
Inductive cls :=
  | BaseLRU
  | GlobalLRU (lrus : list (string * oid))
  | RegionLRU (lruKey : string) (globalLRU : oid).

(** class LRU, with the fields of its subclasses in [ext].  [limit],
    [timeLimit] and [length] are numbers, taken among the integers.  The
    object [cache] is used as a map from keys to nodes; the keys are strings
    that do not name a property every JavaScript object inherits. *)
Module LRU.
Record t := mk {
  length : Z;
  limit : Z;
  timeLimit : Z;
  head : option loc;
  tail : option loc;
  cache : gmap string loc;
  ext : cls
}.
Definition set_length (o : t) (n : Z) : t :=
  mk n (limit o) (timeLimit o) (head o) (tail o) (cache o) (ext o).
Definition set_head (o : t) (p : option loc) : t :=
  mk (length o) (limit o) (timeLimit o) p (tail o) (cache o) (ext o).
Definition set_tail (o : t) (p : option loc) : t :=
  mk (length o) (limit o) (timeLimit o) (head o) p (cache o) (ext o).
Definition set_cache (o : t) (c : gmap string loc) : t :=
  mk (length o) (limit o) (timeLimit o) (head o) (tail o) c (ext o).
Definition set_ext (o : t) (e : cls) : t :=
  mk (length o) (limit o) (timeLimit o) (head o) (tail o) (cache o) e.
End LRU.

(** The heap: nodes, pending timers, cache objects, and the clock. *)
Record world := mkWorld {
  nodes : gmap loc Node.t;
  next_loc : loc;
  timers : gmap tid Timer.t;
  next_tid : tid;
  objs : gmap oid LRU.t;
  next_oid : oid;
  now : Z
}.

Definition empty_world : world := mkWorld ∅ 0%nat ∅ 0%nat ∅ 0%nat 0.

Definition with_nodes (w : world) (h : gmap loc Node.t) (nl : loc) : world :=
  mkWorld h nl (timers w) (next_tid w) (objs w) (next_oid w) (now w).
Definition with_timers (w : world) (t : gmap tid Timer.t) (nt : tid) : world :=
  mkWorld (nodes w) (next_loc w) t nt (objs w) (next_oid w) (now w).
Definition with_objs (w : world) (o : gmap oid LRU.t) (no : oid) : world :=
  mkWorld (nodes w) (next_loc w) (timers w) (next_tid w) o no (now w).

(** ** The monad of method bodies *)

Definition M (A : Type) : Type := world → res (A * world).

Definition ret {A} (a : A) : M A := λ w, Ok (a, w).
Definition throw {A} (e : error) : M A := λ _, Throw e.
Definition bind {A B} (m : M A) (f : A → M B) : M B :=
  λ w, match m w with
       | Ok (a, w') => f a w'
       | Throw e => Throw e
       end.

Notation "'let*' x := m 'in' k" := (bind m (λ x, k))
  (at level 10, x name, m at level 100, k at level 200).
Notation "m >>> k" := (bind m (λ _, k))
  (at level 100, k at level 200, right associativity).

(** Reading and writing the stores. *)
Definition get_obj (this : oid) : M LRU.t :=
  λ w, match objs w !! this with
       | Some o => Ok (o, w)
       | None => Throw Dangling
       end.

Definition upd_obj (this : oid) (f : LRU.t → LRU.t) : M unit :=
  λ w, match objs w !! this with
       | Some o => Ok (tt, with_objs w (<[this := f o]> (objs w)) (next_oid w))
       | None => Throw Dangling
       end.

Definition new_obj (o : LRU.t) : M oid :=
  λ w, Ok (next_oid w, with_objs w (<[next_oid w := o]> (objs w)) (S (next_oid w))).

Definition get_node (p : loc) : M Node.t :=
  λ w, match nodes w !! p with
       | Some n => Ok (n, w)
       | None => Throw Dangling
       end.

Definition upd_node (p : loc) (f : Node.t → Node.t) : M unit :=
  λ w, match nodes w !! p with
       | Some n => Ok (tt, with_nodes w (<[p := f n]> (nodes w)) (next_loc w))
       | None => Throw Dangling
       end.

(** [new Node(...)] *)
Definition new_node (n : Node.t) : M loc :=
  λ w, Ok (next_loc w, with_nodes w (<[next_loc w := n]> (nodes w)) (S (next_loc w))).

(** [setTimeout(() => this.remove(key), delay)] *)
Definition setTimeout (this : oid) (key : string) (delay : Z) : M tid :=
  λ w, Ok (next_tid w,
           with_timers w (<[next_tid w := Timer.mk this key delay (now w)]> (timers w))
                       (S (next_tid w))).

(** [clearTimeout(handle)]: a handle that is not pending is ignored. *)
Definition clearTimeout (h : tid) : M unit :=
  λ w, Ok (tt, with_timers w (delete h (timers w)) (next_tid w)).

(** ** class LRU *)

(** [constructor(limit = 10, timeLimit = 60000)] *)
Definition LRU_fields (limit timeLimit : option Z) (e : cls) : LRU.t :=
  LRU.mk 0 (default 10 limit) (default 60000 timeLimit) None None ∅ e.

Definition LRU_new (limit timeLimit : option Z) : M oid :=
  new_obj (LRU_fields limit timeLimit BaseLRU).

(** [remove(key)] *)
Definition LRU_remove (this : oid) (key : string) : M unit :=
  let* o := get_obj this in
  match LRU.cache o !! key with
  | None => ret tt
  | Some node =>
      let* n := get_node node in
      clearTimeout (Node.timeout n) >>>
      (* if (node.prev !== null) node.prev.next = node.next
         else this.head = node.next *)
      (let* n := get_node node in
       match Node.prev n with
       | Some pp => upd_node pp (λ m, Node.set_next m (Node.next n))
       | None => upd_obj this (λ o, LRU.set_head o (Node.next n))
       end) >>>
      (* if (node.next !== null) node.next.prev = node.prev
         else this.tail = node.prev *)
      (let* n := get_node node in
       match Node.next n with
       | Some nn => upd_node nn (λ m, Node.set_prev m (Node.prev n))
       | None => upd_obj this (λ o, LRU.set_tail o (Node.prev n))
       end) >>>
      upd_obj this (λ o, LRU.set_cache o (delete key (LRU.cache o))) >>>
      upd_obj this (λ o, LRU.set_length o (LRU.length o - 1))
  end.

(** [isAtLimit()] *)
Definition LRU_isAtLimit (this : oid) : M bool :=
  let* o := get_obj this in
  ret (LRU.length o =? LRU.limit o).

(** [timeLimit || this.timeLimit], for an argument that is a number or is
    missing ([None]): zero is falsy. *)
Definition or_default (timeLimit : option Z) (dflt : Z) : Z :=
  match timeLimit with
  | Some t => if t =? 0 then dflt else t
  | None => dflt
  end.

(** [write(key, val, timeLimit = null)] *)
Definition LRU_write (this : oid) (key : string) (val : jsval)
    (timeLimit : option Z) : M unit :=
  let* o := get_obj this in
  (match LRU.cache o !! key with
   | Some _ => LRU_remove this key
   | None => ret tt
   end) >>>
  let* full := LRU_isAtLimit this in
  (if full : bool then
     let* o := get_obj this in
     match LRU.tail o with
     | Some t => let* n := get_node t in LRU_remove this (Node.key n)
     | None => throw TypeError
     end
   else ret tt) >>>
  let* o := get_obj this in
  let timeoutTime := or_default timeLimit (LRU.timeLimit o) in
  let* timeout := setTimeout this key timeoutTime in
  let* o := get_obj this in
  (if LRU.length o =? 0 then
     let* node := new_node (Node.mk key val None None timeout) in
     upd_obj this (λ o, LRU.set_head o (Some node)) >>>
     upd_obj this (λ o, LRU.set_tail o (Some node))
   else
     let* node := new_node (Node.mk key val None (LRU.head o) timeout) in
     (* this.head.prev = node *)
     (match LRU.head o with
      | Some h => upd_node h (λ m, Node.set_prev m (Some node))
      | None => throw TypeError
      end) >>>
     upd_obj this (λ o, LRU.set_head o (Some node))) >>>
  (* this.cache[key] = this.head; a null head cannot occur at this point,
     and a null entry would read as an absent one *)
  upd_obj this (λ o, LRU.set_cache o
     match LRU.head o with
     | Some h => <[key := h]> (LRU.cache o)
     | None => delete key (LRU.cache o)
     end) >>>
  upd_obj this (λ o, LRU.set_length o (LRU.length o + 1)).

(** ** class GlobalLRU and the regional classes *)

(** [Object.keys(this.lrus)] *)
Definition Object_keys (lrus : list (string * oid)) : list string := lrus.*1.

Definition lrus_lookup (lrus : list (string * oid)) (k : string) : option oid :=
  snd <$> List.find (λ e, bool_decide (e.1 = k)) lrus.

Definition get_lrus (this : oid) : M (list (string * oid)) :=
  let* o := get_obj this in
  match LRU.ext o with
  | GlobalLRU lrus => ret lrus
  | _ => throw TypeError
  end.

(** [this.lrus[lruKey] = lru]: an existing property keeps its place in
    the enumeration order, a new one is added last. *)
Fixpoint lrus_assign (lrus : list (string * oid)) (k : string) (r : oid)
    : list (string * oid) :=
  match lrus with
  | [] => [(k, r)]
  | e :: rest =>
      if bool_decide (e.1 = k) then (k, r) :: rest
      else e :: lrus_assign rest k r
  end.

(** [delete this.lrus[lruKey]] *)
Definition lrus_delete (lrus : list (string * oid)) (k : string)
    : list (string * oid) :=
  List.filter (λ e, negb (bool_decide (e.1 = k))) lrus.

(** [constructor(limit = 10, timeLimit = 60000)] of [GlobalLRU] *)
Definition GlobalLRU_new (limit timeLimit : option Z) : M oid :=
  new_obj (LRU_fields limit timeLimit (GlobalLRU [])).

(** [addLRU(lruKey, lru)] *)
Definition GlobalLRU_addLRU (this : oid) (lruKey : string) (lru : oid) : M unit :=
  let* lrus := get_lrus this in
  upd_obj this (λ o, LRU.set_ext o (GlobalLRU (lrus_assign lrus lruKey lru))).

(** [removeLRU(lruKey)] *)
Definition GlobalLRU_removeLRU (this : oid) (lruKey : string) : M unit :=
  let* lrus := get_lrus this in
  upd_obj this (λ o, LRU.set_ext o (GlobalLRU (lrus_delete lrus lruKey))).

(** [updateWrite(key, val, timeLimit)] exists on the regional classes only:
    calling it on another object is a [TypeError]. *)
Definition updateWrite (r : oid) (key : string) (val : jsval)
    (timeLimit : option Z) : M unit :=
  let* o := get_obj r in
  match LRU.ext o with
  | RegionLRU _ _ => LRU_write r key val timeLimit
  | _ => throw TypeError
  end.

(** The loop of [GlobalLRU.write] and of [GlobalLRU.read] over
    [lruKeys = Object.keys(this.lrus)]; [lruKey] is [None] when the caller
    passed no fourth argument. *)
Fixpoint for_lruKeys (this : oid) (lruKeys : list string) (lruKey : option string)
    (body : oid → M unit) : M unit :=
  match lruKeys with
  | [] => ret tt
  | k :: rest =>
      (if bool_decide (Some k ≠ lruKey) then
         let* lrus := get_lrus this in
         match lrus_lookup lrus k with
         | Some r => body r
         | None => throw TypeError
         end
       else ret tt) >>>
      for_lruKeys this rest lruKey body
  end.

(** [write(key, val, timeLimit, lruKey)] of [GlobalLRU] *)
Definition GlobalLRU_write (this : oid) (key : string) (val : jsval)
    (timeLimit : option Z) (lruKey : option string) : M unit :=
  LRU_write this key val timeLimit >>>
  let* lrus := get_lrus this in
  for_lruKeys this (Object_keys lrus) lruKey
    (λ r, updateWrite r key val timeLimit).

(** [write(key, val, timeLimit)] of [CanadaLRU] and [USALRU] *)
Definition RegionLRU_write (this : oid) (key : string) (val : jsval)
    (timeLimit : option Z) : M unit :=
  LRU_write this key val timeLimit >>>
  let* o := get_obj this in
  match LRU.ext o with
  | RegionLRU lruKey g => GlobalLRU_write g key val timeLimit (Some lruKey)
  | _ => throw TypeError
  end.

(** [this.write(key, val)] as JavaScript resolves it: on the class of the
    receiver, with the missing arguments undefined. *)
Definition this_write (this : oid) (key : string) (val : jsval) : M unit :=
  let* o := get_obj this in
  match LRU.ext o with
  | BaseLRU => LRU_write this key val None
  | GlobalLRU _ => GlobalLRU_write this key val None None
  | RegionLRU _ _ => RegionLRU_write this key val None
  end.

(** [read(key)] of [LRU]: the body has no [return], so the call evaluates
    to [undefined]. *)
Definition LRU_read (this : oid) (key : string) : M jsval :=
  let* o := get_obj this in
  (match LRU.cache o !! key with
   | Some node =>
       let* n := get_node node in
       let val := Node.val n in
       LRU_remove this key >>>
       this_write this key val
   | None => ret tt
   end) >>>
  ret JUndefined.




(** [clone()] of [Node]: [prev.clone()] and [next.clone()] name variables
    [prev] and [next] that are bound nowhere in the file, so evaluating either
    throws a [ReferenceError]; the arguments are evaluated left to right. *)
Definition Node_clone (p : loc) : M loc :=
  let* n := get_node p in
  let* a := (match Node.prev n with
             | Some _ => throw ReferenceError
             | None => ret None
             end) in
  let* b := (match Node.next n with
             | Some _ => throw ReferenceError
             | None => ret None
             end) in
  new_node (Node.mk (Node.key n) (Node.val n) a b (Node.timeout n)).

(** [constructor(globalLRU, limit = 10, timeLimit = 60000)] of [USALRU] *)
Definition USALRU_new (globalLRU : oid) (limit timeLimit : option Z) : M oid :=
  new_obj (LRU_fields limit timeLimit (RegionLRU "usa" globalLRU)).

(** [constructor(globalLRU, limit = 10, timeLimit = 60000)] of [CanadaLRU] *)
Definition CanadaLRU_new (globalLRU : oid) (limit timeLimit : option Z) : M oid :=
  let* this := new_obj (LRU_fields limit timeLimit (RegionLRU "canada" globalLRU)) in
  let* g := get_obj globalLRU in
  (if 0 <? LRU.length g then
     (* this.head = this.globalLRU.head.clone() *)
     let* g := get_obj globalLRU in
     let* h := (match LRU.head g with
                | Some p => Node_clone p
                | None => throw TypeError
                end) in
     upd_obj this (λ o, LRU.set_head o (Some h)) >>>
     (* this.tail = this.globalLRU.tail.clone() *)
     let* g := get_obj globalLRU in
     let* t := (match LRU.tail g with
                | Some p => Node_clone p
                | None => throw TypeError
                end) in
     upd_obj this (λ o, LRU.set_tail o (Some t)) >>>
     let* g := get_obj globalLRU in
     upd_obj this (λ o, LRU.set_length o (LRU.length g)) >>>
     (* this.cache = {...this.globalLRU.cache} *)
     let* g := get_obj globalLRU in
     upd_obj this (λ o, LRU.set_cache o (LRU.cache g))
   else ret tt) >>>
  ret this.

(** ** The event loop

    A pending timer that fires is no longer pending, and runs its closure
    [this.remove(key)].  Timers fire between two calls, never inside one.
    Any pending timer may fire, whatever the clock says: every order in
    which the event loop can run the timers is one of the runs considered.
    The clock only moves between two calls. *)
Definition fire (h : tid) : M unit :=
  λ w, match timers w !! h with
       | Some t =>
           LRU_remove (Timer.obj t) (Timer.key t)
             (with_timers w (delete h (timers w)) (next_tid w))
       | None => Ok (tt, w)
       end.

Definition tick (dt : Z) : M unit :=
  λ w, Ok (tt, mkWorld (nodes w) (next_loc w) (timers w) (next_tid w)
                       (objs w) (next_oid w) (now w + dt)).

(** The calls a client and the event loop make on one cache. *)
Inductive op :=
  | Put (key : string) (val : jsval) (timeLimit : option Z)
  | Get (key : string)
  | Remove (key : string)
  | Expire (h : tid)
  | Tick (dt : Z).

Definition run_op (this : oid) (c : op) : M unit :=
  match c with
  | Put key val timeLimit => LRU_write this key val timeLimit
  | Get key => LRU_read this key >>> ret tt
  | Remove key => LRU_remove this key
  | Expire h => fire h
  | Tick dt => tick dt
  end.

Fixpoint run_ops (this : oid) (cs : list op) : M unit :=
  match cs with
  | [] => ret tt
  | c :: cs => run_op this c >>> run_ops this cs
  end.

(** ** Observing a cache *)

(** The recency list, read as [printAll] reads it: from [head] along
    [next].  No list is longer than the number of nodes ever allocated. *)
Fixpoint walk (fuel : nat) (h : gmap loc Node.t) (p : option loc) : list loc :=
  match fuel, p with
  | S fuel, Some q =>
      q :: match h !! q with
           | Some n => walk fuel h (Node.next n)
           | None => []
           end
  | _, _ => []
  end.

Definition lru_list (w : world) (this : oid) : list loc :=
  match objs w !! this with
  | Some o => walk (next_loc w) (nodes w) (LRU.head o)
  | None => []
  end.

(** The key and the value of the node at [p]. *)
Definition kv (h : gmap loc Node.t) (p : loc) : option (string * jsval) :=
  (λ n, (Node.key n, Node.val n)) <$> h !! p.

(** Keys and values in recency order, most recent first. *)
Definition entries (w : world) (this : oid) : list (string * jsval) :=
  omap (kv (nodes w)) (lru_list w this).


(** The node the index holds for a key, and its value. *)
Definition index_node (w : world) (this : oid) (key : string) : option Node.t :=
  o ← objs w !! this; p ← LRU.cache o !! key; nodes w !! p.

Definition index_val (w : world) (this : oid) (key : string) : option jsval :=
  Node.val <$> index_node w this key.

(** The pending timers whose closure removes [key] from [this]. *)
Definition pending_for (w : world) (this : oid) (key : string) : list tid :=
  (map_to_list (filter (λ e, Timer.obj e.2 = this ∧ Timer.key e.2 = key)
                       (timers w))).*1.

(** ** Well-formed caches *)

Definition hd_or (l : list loc) (nx : option loc) : option loc :=
  match l with
  | [] => nx
  | p :: _ => Some p
  end.

Definition last_or (l : list loc) (pv : option loc) : option loc :=
  match list.last l with
  | Some p => Some p
  | None => pv
  end.

(** [dseg h pv l nx]: the nodes [l] are doubly linked in this order in the
    heap [h], coming from [pv] and going to [nx]. *)
Fixpoint dseg (h : gmap loc Node.t) (pv : option loc) (l : list loc)
    (nx : option loc) : Prop :=
  match l with
  | [] => True
  | p :: l' =>
      ∃ n, h !! p = Some n ∧ Node.prev n = pv ∧ Node.next n = hd_or l' nx ∧
           dseg h (Some p) l' nx
  end.

(** The cache object [o] stored at [this] and its recency list [l]. *)
Record rep (w : world) (this : oid) (o : LRU.t) (l : list loc) : Prop := mkRep {
  rep_obj : objs w !! this = Some o;
  rep_head : LRU.head o = list.head l;
  rep_tail : LRU.tail o = list.last l;
  rep_length : LRU.length o = Z.of_nat (length l);
  rep_links : dseg (nodes w) None l None;
  rep_nodup : NoDup l;
  rep_cache : ∀ (k : string) (p : loc), LRU.cache o !! k = Some p ↔
                p ∈ l ∧ ∃ n, nodes w !! p = Some n ∧ Node.key n = k
}.

(** Every entry of the list has its own pending timer, armed for its key,
    and the cache has no other pending timer. *)
Record rep_timers (w : world) (this : oid) (l : list loc) : Prop := mkRepTimers {
  rt_armed : ∀ (p : loc) n, p ∈ l → nodes w !! p = Some n →
               ∃ tm, timers w !! Node.timeout n = Some tm ∧
                     Timer.obj tm = this ∧ Timer.key tm = Node.key n;
  rt_owned : ∀ (h : tid) tm, timers w !! h = Some tm → Timer.obj tm = this →
               ∃ p n, p ∈ l ∧ nodes w !! p = Some n ∧ Node.timeout n = h
}.

(** References are allocated in increasing order. *)
Record alloc_ok (w : world) : Prop := mkAllocOk {
  ao_nodes : ∀ p : loc, is_Some (nodes w !! p) → (p < next_loc w)%nat;
  ao_timers : ∀ h : tid, is_Some (timers w !! h) → (h < next_tid w)%nat;
  ao_objs : ∀ r : oid, is_Some (objs w !! r) → (r < next_oid w)%nat;
  ao_closures : ∀ (h : tid) tm, timers w !! h = Some tm → (Timer.obj tm < next_oid w)%nat
}.

(** What a node carries besides its links. *)
Definition payload (n : Node.t) : string * jsval * tid :=
  (Node.key n, Node.val n, Node.timeout n).

(** ** The effect of [remove], [write] and the fan-out, written out *)

Definition alter_opt (p : option loc) (f : Node.t → Node.t)
    (h : gmap loc Node.t) : gmap loc Node.t :=
  match p with
  | Some q => alter f q h
  | None => h
  end.

(** The cache object and the heap after [remove] has unlinked the node [n]
    that the index held for [k]. *)
Definition removed_obj (o : LRU.t) (n : Node.t) (k : string) : LRU.t :=
  LRU.mk (LRU.length o - 1) (LRU.limit o) (LRU.timeLimit o)
    (match Node.prev n with Some _ => LRU.head o | None => Node.next n end)
    (match Node.next n with Some _ => LRU.tail o | None => Node.prev n end)
    (delete k (LRU.cache o)) (LRU.ext o).

Definition removed_world (w : world) (this : oid) (o : LRU.t) (n : Node.t)
    (k : string) : world :=
  mkWorld
    (alter_opt (Node.next n) (λ m, Node.set_prev m (Node.prev n))
       (alter_opt (Node.prev n) (λ m, Node.set_next m (Node.next n)) (nodes w)))
    (next_loc w) (delete (Node.timeout n) (timers w)) (next_tid w)
    (<[this := removed_obj o n k]> (objs w)) (next_oid w) (now w).

(** What a call on [this], whose recency list is within [F], leaves alone:
    the nodes allocated before that are not in [F], the other cache objects,
    and the timers of the other caches. *)
Record frame (this : oid) (F : list loc) (w w' : world) : Prop := mkFrame {
  fr_nodes : ∀ q : loc, q ∉ F → (q < next_loc w)%nat → nodes w' !! q = nodes w !! q;
  fr_objs : ∀ r : oid, r ≠ this → objs w' !! r = objs w !! r;
  fr_timers : ∀ (h : tid) tm, Timer.obj tm ≠ this →
                timers w' !! h = Some tm ↔ timers w !! h = Some tm;
  fr_loc : (next_loc w ≤ next_loc w')%nat
}.

(** The second half of [write]: arm the timer, allocate the node, put it
    at the head, index it. *)
Definition LRU_write_push (this : oid) (key : string) (val : jsval)
    (timeLimit : option Z) : M unit :=
  let* o := get_obj this in
  let timeoutTime := or_default timeLimit (LRU.timeLimit o) in
  let* timeout := setTimeout this key timeoutTime in
  let* o := get_obj this in
  (if LRU.length o =? 0 then
     let* node := new_node (Node.mk key val None None timeout) in
     upd_obj this (λ o, LRU.set_head o (Some node)) >>>
     upd_obj this (λ o, LRU.set_tail o (Some node))
   else
     let* node := new_node (Node.mk key val None (LRU.head o) timeout) in
     (match LRU.head o with
      | Some h => upd_node h (λ m, Node.set_prev m (Some node))
      | None => throw TypeError
      end) >>>
     upd_obj this (λ o, LRU.set_head o (Some node))) >>>
  upd_obj this (λ o, LRU.set_cache o
     match LRU.head o with
     | Some h => <[key := h]> (LRU.cache o)
     | None => delete key (LRU.cache o)
     end) >>>
  upd_obj this (λ o, LRU.set_length o (LRU.length o + 1)).

(** The cache object and the heap after that second half. *)
Definition pushed_obj (w : world) (o : LRU.t) (key : string) : LRU.t :=
  LRU.mk (LRU.length o + 1) (LRU.limit o) (LRU.timeLimit o)
    (Some (next_loc w))
    (if LRU.length o =? 0 then Some (next_loc w) else LRU.tail o)
    (<[key := next_loc w]> (LRU.cache o)) (LRU.ext o).

Definition pushed_node (w : world) (o : LRU.t) (key : string) (val : jsval)
    : Node.t :=
  Node.mk key val None (if LRU.length o =? 0 then None else LRU.head o)
    (next_tid w).

Definition pushed_world (w : world) (this : oid) (o : LRU.t) (key : string)
    (val : jsval) (timeLimit : option Z) : world :=
  mkWorld
    (alter_opt (if LRU.length o =? 0 then None else LRU.head o)
       (λ m, Node.set_prev m (Some (next_loc w)))
       (<[next_loc w := pushed_node w o key val]> (nodes w)))
    (S (next_loc w))
    (<[next_tid w := Timer.mk this key (or_default timeLimit (LRU.timeLimit o))
                       (now w)]> (timers w))
    (S (next_tid w))
    (<[this := pushed_obj w o key]> (objs w)) (next_oid w) (now w).

(** A call on [this] took the well-formed cache [o], [l] of [w] to the
    well-formed cache [o'], [l'] of [w']. *)
Record stepped (this : oid) (w : world) (o : LRU.t) (l : list loc)
    (w' : world) (o' : LRU.t) (l' : list loc) : Prop := mkStepped {
  st_rep : rep w' this o' l';
  st_timers : rep_timers w' this l';
  st_alloc : alloc_ok w';
  st_frame : frame this l w w';
  st_limit : LRU.limit o' = LRU.limit o;
  st_timeLimit : LRU.timeLimit o' = LRU.timeLimit o;
  st_ext : LRU.ext o' = LRU.ext o;
  st_oid : next_oid w' = next_oid w;
  st_now : now w' = now w;
  st_tid : (next_tid w ≤ next_tid w')%nat;
  st_list : ∀ q : loc, q ∈ l' → q ∈ l ∨ (next_loc w ≤ q)%nat;
  st_old_nodes : ∀ (q : loc) n, nodes w !! q = Some n →
                   ∃ n', nodes w' !! q = Some n' ∧ payload n' = payload n;
  st_old_timers : ∀ (h : tid) tm, timers w' !! h = Some tm → (h < next_tid w)%nat →
                    timers w !! h = Some tm;
  st_new_timers : ∀ (h : tid) tm, timers w' !! h = Some tm → (next_tid w ≤ h)%nat →
                    Timer.obj tm = this
}.


(** ** Programs and what they show *)

(** A program that constructs one cache and then makes the calls [cs]. *)
Definition boot (limit timeLimit : option Z) (cs : list op) : M oid :=
  let* c := LRU_new limit timeLimit in
  run_ops c cs >>> ret c.

(** Looking at the heap without changing it. *)
Definition observe {A} (f : world → A) : M A := λ w, Ok (f w, w).

(** The value a program run from the empty heap evaluates to. *)
Definition value_of {A} (m : M A) : option A :=
  match m empty_world with
  | Ok (a, _) => Some a
  | Throw _ => None
  end.




(** The registry of a hub. *)
Definition registry (w : world) (hub : oid) : option (list (string * oid)) :=
  o ← objs w !! hub;
  match LRU.ext o with
  | GlobalLRU lrus => Some lrus
  | _ => None
  end.

(** The scenario of the specification: capacity 2, default TTL 1000 ms.
    It evaluates to what the [Get] returned and to the entries of the cache
    before and after the last [Put]. *)
Definition scenario : M (jsval * list (string * jsval) * list (string * jsval)) :=
  let* c := LRU_new (Some 2) (Some 1000) in
  LRU_write c "k1" (JNum 1) None >>>
  LRU_write c "k2" (JNum 2) None >>>
  let* r := LRU_read c "k1" in
  let* before := observe (λ w, entries w c) in
  LRU_write c "k3" (JNum 3) None >>>
  let* after := observe (λ w, entries w c) in
  ret (r, before, after).


(** A hub that holds the entries [kvs], written in this order by a hub with
    no region registered, and a [CanadaLRU] constructed against it. *)
Fixpoint hub_writes (hub : oid) (kvs : list (string * jsval)) : M unit :=
  match kvs with
  | [] => ret tt
  | (k, v) :: kvs => GlobalLRU_write hub k v None None >>> hub_writes hub kvs
  end.

Definition join_hub (kvs : list (string * jsval)) : M (oid * oid) :=
  let* hub := GlobalLRU_new None None in
  hub_writes hub kvs >>>
  let* canada := CanadaLRU_new hub None None in
  ret (hub, canada).

(** ** Several caches on one heap *)

(** A well-formed cache on which [write] does not throw. *)
Definition writable (w : world) (r : oid) : Prop :=
  ∃ o l, rep w r o l ∧ rep_timers w r l ∧ LRU.limit o ≠ 0.

(** The caches [rs] are well formed and share no node. *)
Definition sys_ok (w : world) (rs : list oid) : Prop :=
  alloc_ok w ∧ NoDup rs ∧ (∀ r, r ∈ rs → writable w r) ∧
  ∀ r1 r2, r1 ∈ rs → r2 ∈ rs → r1 ≠ r2 → lru_list w r1 ## lru_list w r2.


(** The cache [r] is in [w'] what it was in [w]: the same object, the same
    nodes in the same order, the same pending timers. *)
Definition same_view (w w' : world) (r : oid) : Prop :=
  objs w' !! r = objs w !! r ∧
  lru_list w' r = lru_list w r ∧
  (∀ p : loc, p ∈ lru_list w r → nodes w' !! p = nodes w !! p) ∧
  (∀ (h : tid) tm, Timer.obj tm = r →
     timers w' !! h = Some tm ↔ timers w !! h = Some tm).


(** The node the index of a cache holds for a key. *)
Definition index_loc (w : world) (this : oid) (key : string) : option loc :=
  o ← objs w !! this; LRU.cache o !! key.



(** A region joins a hub that holds one entry, then removes that entry
    from its own cache.  The program evaluates to: the node the hub and the
    region index for the key; the recency list of the region; the pending
    timers of the hub for the key before and after the removal; the
    value the hub holds at the end. *)
Definition join_then_remove
    : M (option loc * option loc * list loc * list tid * list tid * option jsval) :=
  let* hc := join_hub [("a"%string, JNum 1)] in
  let hub := hc.1 in
  let canada := hc.2 in
  let* p_hub := observe (λ w, index_loc w hub "a") in
  let* p_canada := observe (λ w, index_loc w canada "a") in
  let* l_canada := observe (λ w, lru_list w canada) in
  let* before := observe (λ w, pending_for w hub "a") in
  LRU_remove canada "a" >>>
  let* after := observe (λ w, pending_for w hub "a") in
  let* v := observe (λ w, index_val w hub "a") in
  ret (p_hub, p_canada, l_canada, before, after, v).

(** A region constructed with a capacity of zero and a negative TTL: the
    program evaluates to the [limit] and [timeLimit] of the cache. *)
Definition construct_nonpositive : M (option (Z * Z)) :=
  let* hub := GlobalLRU_new None None in
  let* usa := USALRU_new hub (Some 0) (Some (-5)) in
  observe (λ w, (λ o, (LRU.limit o, LRU.timeLimit o)) <$> objs w !! usa).

(** Two caches registered under the same region id: the registry after
    the first and after the second [addLRU]. *)
Definition register_twice
    : M (option (list (string * oid)) * option (list (string * oid))) :=
  let* hub := GlobalLRU_new None None in
  let* r1 := USALRU_new hub None None in
  let* r2 := USALRU_new hub None None in
  GlobalLRU_addLRU hub "usa" r1 >>>
  let* before := observe (λ w, registry w hub) in
  GlobalLRU_addLRU hub "usa" r2 >>>
  let* after := observe (λ w, registry w hub) in
  ret (before, after).

(** The set-up of [geoLRUDemo]: a hub, the two regions, both registered. *)
Definition geo_setup : M (oid * oid * oid) :=
  let* globalLRU := GlobalLRU_new None None in
  let* canadaLRU := CanadaLRU_new globalLRU None None in
  let* usaLRU := USALRU_new globalLRU None None in
  GlobalLRU_addLRU globalLRU "canada" canadaLRU >>>
  GlobalLRU_addLRU globalLRU "usa" usaLRU >>>
  ret (globalLRU, canadaLRU, usaLRU).

(** What a cache is right after its construction. *)
Definition pristine (o : LRU.t) (limit timeLimit : option Z) : Prop :=
  LRU.limit o = default 10 limit ∧
  LRU.timeLimit o = default 60000 timeLimit ∧
  LRU.length o = 0 ∧ LRU.head o = None ∧ LRU.tail o = None ∧
  LRU.cache o = ∅.

(** The heap after [geo_setup]. *)
Definition geo_world : world :=
  with_objs empty_world
    (<[0%nat := LRU_fields None None
                  (GlobalLRU [("canada"%string, 1%nat); ("usa"%string, 2%nat)])]>
       (<[1%nat := LRU_fields None None (RegionLRU "canada" 0%nat)]>
          (<[2%nat := LRU_fields None None (RegionLRU "usa" 0%nat)]> ∅)))
    3%nat.

(** A hub with one region registered as "usa". *)
Definition usa_only : world :=
  with_objs empty_world
    {[ 0%nat := LRU_fields None None (GlobalLRU [("usa"%string, 1%nat)]) ]}
    3%nat.

(** How [write] reshapes the recency list before it pushes the new node:
    the entry of the key, if any, is unlinked, then the last entry if the
    cache is at its limit. *)
Definition unlinked (o : LRU.t) (l : list loc) (key : string) (la : list loc)
    : Prop :=
  (LRU.cache o !! key = None ∧ la = l) ∨
  (∃ p l1 l2, LRU.cache o !! key = Some p ∧ l = l1 ++ p :: l2 ∧ la = l1 ++ l2).

Definition evicted (limit : Z) (la lb : list loc) : Prop :=
  (Z.of_nat (length la) ≠ limit ∧ lb = la) ∨
  (Z.of_nat (length la) = limit ∧ ∃ t, la = lb ++ [t]).

(** ** A cache as its list of entries

    What the calls of [LRU] do to the entries of the cache, most recent
    first, said on lists: the heap, the links and the index are gone. *)







(** An empty cache whose limit is zero, with no timer pending. *)
Definition inv0 (w : world) (this : oid) : Prop :=
  ∃ o, objs w !! this = Some o ∧ LRU.cache o = ∅ ∧ LRU.length o = 0 ∧
       LRU.limit o = 0 ∧ LRU.tail o = None ∧ LRU.ext o = BaseLRU ∧
       timers w = ∅.



(** ** A hub and its regions *)

(** What calls that reach the caches [T] only leave as it was: the caches
    of [rs] are well formed in [w'], those not in [T] are what they were in
    [w], and no object has changed its class or lost its registry. *)
Record touch (rs T : list oid) (w w' : world) : Prop := mkTouch {
  tc_sys : sys_ok w' rs;
  tc_same : ∀ c : oid, c ∈ rs → c ∉ T → same_view w w' c;
  tc_objs : ∀ c : oid, c ∉ T → objs w' !! c = objs w !! c;
  tc_ext : ∀ (c : oid) o, objs w !! c = Some o →
             ∃ o', objs w' !! c = Some o' ∧ LRU.ext o' = LRU.ext o
}.

(** The calls wrote [key] and [val] once to each cache of the list [T],
    and nothing else. *)
Record wrote (rs : list oid) (key : string) (val : jsval) (T : list oid)
    (w w' : world) : Prop := mkWrote {
  wr_touch : touch rs T w w';
  wr_holds : ∀ c : oid, c ∈ T → index_val w' c key = Some val;
  wr_loc : next_loc w' = (next_loc w + length T)%nat;
  wr_tid : next_tid w' = (next_tid w + length T)%nat
}.

(** A deployment: the hub [hub] with the registry [lrus], every cache
    registered being a region that was constructed for this hub with the
    id it is registered under; [rs] are the caches of the heap, well formed
    and sharing no node. *)
Definition geo (w : world) (hub : oid) (lrus : list (string * oid))
    (rs : list oid) : Prop :=
  registry w hub = Some lrus ∧ NoDup lrus.*1 ∧ sys_ok w rs ∧ hub ∈ rs ∧
  ∀ id r, (id, r) ∈ lrus →
          r ∈ rs ∧ ∃ o, objs w !! r = Some o ∧ LRU.ext o = RegionLRU id hub.

(** The caches the loops of [GlobalLRU] call, in order, for the argument
    [lruKey]. *)
Definition notified (lrus : list (string * oid)) (lruKey : option string)
    : list oid :=
  (filter (λ e, Some e.1 ≠ lruKey) lrus).*2.



(** ** q1.js: [validate] and [q2], the comparison of version strings *)

(** The [InvalidInputError]s [validate] throws, by message; [i] is the
    position the message names.  The [data] of each is the input itself. *)
Inductive InvalidInputError :=
  | NotAString
  | EmptyInput
  | TwoDots (i : Z)
  | DotAtEnd
  | BadCharacter (i : Z).

(** [v.charCodeAt(i)] of the character at position [i]; the strings are
    those whose characters have a code below 256. *)
Definition charCode (c : Ascii.ascii) : Z := Z.of_nat (Ascii.nat_of_ascii c).

(** The loop of [validate] from position [i] on, over the characters that
    are left; [len] is [v.length].  The components are numbers of
    JavaScript, taken here as integers: this is exact as long as a
    component stays below 2^53. *)
Fixpoint validate_loop (len i : Z) (v : string) (vArr : list Z)
    (foundDot : bool) (currentNumber : Z) : InvalidInputError + list Z :=
  match v with
  | EmptyString => inr (vArr ++ [currentNumber])
  | String c rest =>
      if charCode c =? 46 then
        if foundDot then inl (TwoDots i)
        else if (i =? 0) || (i =? len - 1) then inl DotAtEnd
        else validate_loop len (i + 1) rest (vArr ++ [currentNumber]) true 0
      else if (48 <=? charCode c) && (charCode c <=? 57) then
        validate_loop len (i + 1) rest vArr false
          (currentNumber * 10 + (charCode c - 48))
      else inl (BadCharacter i)
  end.

(** [validate(v)] *)
Definition validate (v : jsval) : InvalidInputError + list Z :=
  match v with
  | JStr s =>
      if Z.of_nat (String.length s) =? 0 then inl EmptyInput
      else validate_loop (Z.of_nat (String.length s)) 0 s [] false 0
  | _ => inl NotAString
  end.

(** The first loop of [q2], over the positions both arrays have: the
    result it returns, if it returns. *)
Fixpoint first_difference (v1Arr v2Arr : list Z) : option Z :=
  match v1Arr, v2Arr with
  | x :: r1, y :: r2 =>
      if x >? y then Some 1
      else if y >? x then Some (-1)
      else first_difference r1 r2
  | _, _ => None
  end.

(** The loops over the extra numbers of the longer array: whether one of
    them is not zero. *)
Definition extra_nonzero (from : nat) (arr : list Z) : bool :=
  existsb (λ x, negb (x =? 0)) (drop from arr).

(** The body of [q2] after the [try] block. *)
Definition q2_compare (v1Arr v2Arr : list Z) : Z :=
  match first_difference v1Arr v2Arr with
  | Some r => r
  | None =>
      if (length v2Arr <? length v1Arr)%nat then
        if extra_nonzero (length v2Arr) v1Arr then 1 else 0
      else if (length v1Arr <? length v2Arr)%nat then
        if extra_nonzero (length v1Arr) v2Arr then -1 else 0
      else 0
  end.

(** [q2(v1, v2)]: [inl e] stands for the call that prints the message of
    [e] and returns [undefined]. *)
Definition q2 (v1 v2 : jsval) : InvalidInputError + Z :=
  match validate v1 with
  | inl e => inl e
  | inr v1Arr =>
      match validate v2 with
      | inl e => inl e
      | inr v2Arr => inr (q2_compare v1Arr v2Arr)
      end
  end.

(** *** The grammar of versions *)

(** A numeral is a string of decimal digits that is not empty; [number]
    is the number it denotes. *)
Fixpoint all_digits (d : string) : bool :=
  match d with
  | EmptyString => true
  | String c rest =>
      (48 <=? charCode c) && (charCode c <=? 57) && all_digits rest
  end.

Definition numeral (d : string) : Prop :=
  d ≠ EmptyString ∧ all_digits d = true.

Fixpoint number_from (acc : Z) (d : string) : Z :=
  match d with
  | EmptyString => acc
  | String c rest => number_from (acc * 10 + (charCode c - 48)) rest
  end.

Definition number (d : string) : Z := number_from 0 d.

(** The character of code 46, and each of [parts] after a dot. *)
Definition dot : Ascii.ascii := Ascii.ascii_of_nat 46.

Fixpoint dotted (parts : list string) : string :=
  match parts with
  | [] => EmptyString
  | p :: ps => String dot (p +:+ dotted ps)
  end.

(** The [i]-th component of a version, zero when it has fewer. *)
Definition component (arr : list Z) (i : nat) : Z := default 0 (arr !! i).

(** The strings [validate] reads to their end. *)
Fixpoint all_digits_or_dots (d : string) : bool :=
  match d with
  | EmptyString => true
  | String c rest =>
      ((charCode c =? 46) || ((48 <=? charCode c) && (charCode c <=? 57)))
      && all_digits_or_dots rest
  end.

(** What an error of [validate] says about its input. *)
Definition offence (s : string) (e : InvalidInputError) : Prop :=
  match e with
  | NotAString => False
  | EmptyInput => s = EmptyString
  | TwoDots i =>
      ∃ a b, s = a +:+ String dot (String dot b) ∧
             Z.of_nat (String.length a) + 1 = i
  | DotAtEnd =>
      (∃ b, s = String dot b) ∨ (∃ a, s = a +:+ String dot EmptyString)
  | BadCharacter i =>
      ∃ a c b, s = a +:+ String c b ∧ Z.of_nat (String.length a) = i ∧
               charCode c ≠ 46 ∧ ¬ (48 ≤ charCode c ≤ 57) ∧
               all_digits_or_dots a = true
  end.


(** Version [a] comes before version [b]: at the first position where
    their components differ, that of [a] is the smaller. *)
Definition older (a b : list Z) : Prop :=
  ∃ i, (∀ j, (j < i)%nat → component a j = component b j) ∧
       component a i < component b i.

(** Versions with the same components. *)
Definition same_version (a b : list Z) : Prop :=
  ∀ i, component a i = component b i.

(** * Proofs

    ** The interval test and the shape of linked lists *)



Lemma hd_or_app l1 l2 nx : hd_or (l1 ++ l2) nx = hd_or l1 (hd_or l2 nx).
Proof. by destruct l1. Qed.

Lemma last_or_cons p l pv : last_or (p :: l) pv = last_or l (Some p).
Proof.
  unfold last_or. destruct l as [|q l]; [done|].
  change (list.last (p :: q :: l)) with (list.last (q :: l)).
  destruct (list.last (q :: l)) eqn:E; [done|].
  by apply last_None in E.
Qed.

Lemma hd_or_None l : hd_or l None = list.head l.
Proof. by destruct l. Qed.

Lemma last_or_None l : last_or l None = list.last l.
Proof. unfold last_or. by destruct (list.last l). Qed.

Lemma last_or_snoc l p pv : last_or (l ++ [p]) pv = Some p.
Proof. unfold last_or. by rewrite last_snoc. Qed.

Lemma dseg_app h pv l1 l2 nx :
  dseg h pv (l1 ++ l2) nx ↔
  dseg h pv l1 (hd_or l2 nx) ∧ dseg h (last_or l1 pv) l2 nx.
Proof.
  revert pv. induction l1 as [|p l1 IH]; intros pv; simpl.
  - unfold last_or. simpl. tauto.
  - rewrite last_or_cons, hd_or_app. split.
    + intros (n & Hn & Hp & Hx & Hd). apply IH in Hd as [Hd1 Hd2].
      split; [|done]. by exists n.
    + intros [(n & Hn & Hp & Hx & Hd1) Hd2]. exists n.
      repeat split; try done. apply IH. done.
Qed.

Lemma dseg_ext h h' pv l nx :
  (∀ p, p ∈ l → h' !! p = h !! p) → dseg h pv l nx → dseg h' pv l nx.
Proof.
  revert pv. induction l as [|p l IH]; intros pv Hagree; simpl; [done|].
  intros (n & Hn & Hp & Hx & Hd). exists n. repeat split; try done.
  - rewrite Hagree; [done | apply elem_of_cons; by left].
  - apply IH; [|done]. intros q Hq. apply Hagree. apply elem_of_cons; by right.
Qed.

Lemma dseg_lookup h pv l nx p :
  dseg h pv l nx → p ∈ l → is_Some (h !! p).
Proof.
  revert pv. induction l as [|q l IH]; intros pv; simpl.
  - intros _ Hp. by apply elem_of_nil in Hp.
  - intros (n & Hn & _ & _ & Hd) Hp. apply elem_of_cons in Hp as [->|Hp]; eauto.
Qed.

(** Retargeting the [next] field of the last node of a segment. *)
Lemma dseg_set_last h h' pv l nx nx' :
  dseg h pv l nx → NoDup l →
  (∀ q, q ∈ l → Some q ≠ list.last l → h' !! q = h !! q) →
  (∀ q n, list.last l = Some q → h !! q = Some n →
          h' !! q = Some (Node.set_next n nx')) →
  dseg h' pv l nx'.
Proof.
  revert pv. induction l as [|p l IH]; intros pv; simpl; [done|].
  intros (n & Hn & Hp & Hx & Hd) Hnd Hsame Hlast.
  apply list.NoDup_cons in Hnd as [Hnotin Hnd].
  destruct l as [|q l].
  - exists (Node.set_next n nx'). repeat split; try done.
    apply Hlast; done.
  - exists n. repeat split; try done.
    + rewrite Hsame; [done | apply elem_of_cons; by left |].
      change (list.last (p :: q :: l)) with (list.last (q :: l)).
      intros E. symmetry in E. apply last_Some_elem_of in E. done.
    + apply IH; [done | done | |].
      * intros r Hr Hne. apply Hsame; [apply elem_of_cons; by right | done].
      * intros r m Hr Hm. apply Hlast; done.
Qed.

(** Retargeting the [prev] field of the first node of a segment. *)
Lemma dseg_set_first h h' pv pv' l nx :
  dseg h pv l nx → NoDup l →
  (∀ q, q ∈ l → Some q ≠ list.head l → h' !! q = h !! q) →
  (∀ q n, list.head l = Some q → h !! q = Some n →
          h' !! q = Some (Node.set_prev n pv')) →
  dseg h' pv' l nx.
Proof.
  destruct l as [|p l]; simpl; [done|].
  intros (n & Hn & Hp & Hx & Hd) Hnd Hsame Hfirst.
  apply list.NoDup_cons in Hnd as [Hnotin Hnd].
  exists (Node.set_prev n pv'). repeat split; try done.
  - by apply Hfirst.
  - eapply dseg_ext; [|done]. intros q Hq. apply Hsame; [apply elem_of_cons; by right|].
    intros [= ->]. done.
Qed.

Lemma walk_dseg fuel h pv l :
  dseg h pv l None → (length l ≤ fuel)%nat → walk fuel h (list.head l) = l.
Proof.
  revert fuel pv. induction l as [|p l IH]; intros fuel pv; simpl.
  - by destruct fuel.
  - intros (n & Hn & Hp & Hx & Hd) Hlen. destruct fuel as [|fuel]; [lia|].
    simpl. rewrite Hn, Hx, hd_or_None. f_equal. eapply IH; [done | lia].
Qed.

(** ** What [remove] computes *)

Lemma insert_as_alter (h : gmap loc Node.t) p n f :
  h !! p = Some n → <[p := f n]> h = alter f p h.
Proof.
  intros Hp. apply map_eq. intros q.
  rewrite lookup_alter, lookup_insert. case_decide; subst; [by rewrite Hp | done].
Qed.

Lemma world_eq w w' :
  nodes w = nodes w' → next_loc w = next_loc w' → timers w = timers w' →
  next_tid w = next_tid w' → objs w = objs w' → next_oid w = next_oid w' →
  now w = now w' → w = w'.
Proof. destruct w, w'; simpl; intros; by subst. Qed.

Lemma remove_exec w this o k p n :
  objs w !! this = Some o → LRU.cache o !! k = Some p →
  nodes w !! p = Some n → Node.prev n ≠ Some p →
  (∀ pp, Node.prev n = Some pp → is_Some (nodes w !! pp)) →
  (∀ nn, Node.next n = Some nn → is_Some (nodes w !! nn)) →
  LRU_remove this k w = Ok (tt, removed_world w this o n k).
Proof.
  intros Ho Hk Hn Hself Hprev Hnext.
  unfold LRU_remove, bind, get_obj. rewrite Ho, Hk.
  unfold get_node at 1. rewrite Hn. unfold clearTimeout.
  unfold get_node, upd_node, upd_obj, removed_world, removed_obj. simpl.
  rewrite Hn. destruct (Node.prev n) as [pp|] eqn:Epv.
  - destruct (Hprev pp eq_refl) as [npp Hpp]. simpl. rewrite Hpp. simpl.
    rewrite lookup_insert_ne, Hn by congruence.
    rewrite (insert_as_alter _ _ _ (λ m, Node.set_next m (Node.next n)) Hpp).
    destruct (Node.next n) as [nn|] eqn:Enx.
    + destruct (Hnext nn eq_refl) as [nnn Hnn]. simpl.
      destruct (alter _ pp (nodes w) !! nn) as [m|] eqn:Em.
      2:{ rewrite lookup_alter in Em. case_decide; subst.
          all: rewrite ?Hpp, ?Hnn in Em; done. }
      simpl. rewrite Ho. repeat (progress (simpl; rewrite ?lookup_insert_eq)).
      f_equal. f_equal. apply world_eq; simpl; try done.
      * rewrite ?Epv, ?Enx.
        by apply (insert_as_alter _ _ _ (λ m, Node.set_prev m (Some pp))).
      * rewrite !insert_insert_eq; cbn; rewrite ?Epv, ?Enx; done.
    + simpl. rewrite Ho. repeat (progress (simpl; rewrite ?lookup_insert_eq)).
      f_equal. f_equal. apply world_eq; simpl; try done.
      rewrite !insert_insert_eq; cbn; rewrite ?Epv, ?Enx; done.
  - simpl. rewrite Ho. simpl. rewrite Hn.
    destruct (Node.next n) as [nn|] eqn:Enx.
    + destruct (Hnext nn eq_refl) as [nnn Hnn]. simpl. rewrite Hnn. simpl.
      repeat (progress (simpl; rewrite ?lookup_insert_eq)).
      f_equal. f_equal. apply world_eq; simpl; try done.
      * rewrite ?Epv, ?Enx.
        by apply (insert_as_alter _ _ _ (λ m, Node.set_prev m None)).
      * rewrite !insert_insert_eq; cbn; rewrite ?Epv, ?Enx; done.
    + simpl. repeat (progress (simpl; rewrite ?lookup_insert_eq)).
      f_equal. f_equal. apply world_eq; simpl; try done.
      rewrite !insert_insert_eq; cbn; rewrite ?Epv, ?Enx; done.
Qed.

(** ** [remove] keeps a cache well formed *)

Lemma alter_opt_lookup_ne p f (h : gmap loc Node.t) q :
  Some q ≠ p → alter_opt p f h !! q = h !! q.
Proof.
  destruct p as [r|]; simpl; [|done]. intros Hne.
  rewrite lookup_alter_ne; [done | congruence].
Qed.

Lemma alter_opt_lookup_eq f (h : gmap loc Node.t) q :
  alter_opt (Some q) f h !! q = f <$> h !! q.
Proof. simpl. by rewrite lookup_alter_eq. Qed.

Lemma alter_opt_payload p f (h : gmap loc Node.t) :
  (∀ m, payload (f m) = payload m) →
  payload <$> alter_opt p f h = payload <$> h.
Proof.
  intros Hf. destruct p as [r|]; simpl; [|done].
  apply map_eq. intros q. rewrite !lookup_fmap, lookup_alter.
  case_decide; subst; [|done]. destruct (h !! q); simpl; [by rewrite Hf | done].
Qed.

Lemma payload_lookup (h h' : gmap loc Node.t) q n :
  payload <$> h' = payload <$> h → h !! q = Some n →
  ∃ n', h' !! q = Some n' ∧ payload n' = payload n.
Proof.
  intros Heq Hq. assert ((payload <$> h') !! q = Some (payload n)) as H.
  { rewrite Heq, lookup_fmap, Hq. done. }
  rewrite lookup_fmap in H. destruct (h' !! q) as [n'|]; [|done].
  simpl in H. exists n'. split; [done | congruence].
Qed.

Lemma payload_key n n' : payload n' = payload n → Node.key n' = Node.key n.
Proof. unfold payload. congruence. Qed.
Lemma payload_timeout n n' :
  payload n' = payload n → Node.timeout n' = Node.timeout n.
Proof. unfold payload. congruence. Qed.

Lemma removed_payload w this o n k :
  payload <$> nodes (removed_world w this o n k) = payload <$> nodes w.
Proof.
  unfold removed_world. simpl. rewrite !alter_opt_payload; done.
Qed.

(** Two entries of a well-formed cache with the same key are the same. *)
Lemma rep_key_inj w this o l p q n m :
  rep w this o l → p ∈ l → q ∈ l → nodes w !! p = Some n →
  nodes w !! q = Some m → Node.key n = Node.key m → p = q.
Proof.
  intros R Hp Hq Hn Hm Hk.
  assert (LRU.cache o !! Node.key n = Some p) as H1.
  { apply (rep_cache _ _ _ _ R). eauto. }
  assert (LRU.cache o !! Node.key n = Some q) as H2.
  { apply (rep_cache _ _ _ _ R). eauto. }
  congruence.
Qed.

Lemma head_app_cons_l {A} (l1 l2 : list A) p x :
  list.last l1 = Some x → list.head (l1 ++ p :: l2) = list.head (l1 ++ l2).
Proof. destruct l1; [done|]. done. Qed.

Lemma last_app_cons_r {A} (l1 l2 : list A) p x :
  list.head l2 = Some x → list.last (l1 ++ p :: l2) = list.last (l1 ++ l2).
Proof.
  destruct l2 as [|y l2]; [done|]. intros _.
  rewrite !last_app_cons. done.
Qed.

Lemma remove_rep w this o l1 p l2 n k :
  rep w this o (l1 ++ p :: l2) → nodes w !! p = Some n → Node.key n = k →
  rep (removed_world w this o n k) this (removed_obj o n k) (l1 ++ l2) ∧
  Node.prev n = list.last l1 ∧ Node.next n = list.head l2.
Proof.
  intros R Hn Hk.
  pose proof (rep_links _ _ _ _ R) as Hd.
  apply dseg_app in Hd as [Hd1 Hd2]. simpl in Hd2.
  destruct Hd2 as (n' & Hn' & Hpv & Hnx & Hd2). simplify_eq.
  rewrite last_or_None in Hpv. rewrite hd_or_None in Hnx.
  pose proof (rep_nodup _ _ _ _ R) as Hnd.
  apply list.NoDup_app in Hnd as (Hnd1 & Hdisj & Hnd2).
  apply list.NoDup_cons in Hnd2 as [Hp2 Hnd2].
  assert (p ∉ l1) as Hp1. { intros H. apply (Hdisj p H). by left. }
  assert (∀ q, q ∈ l1 → q ∉ l2) as Hdisj'.
  { intros q H1 H2. apply (Hdisj q H1). by right. }
  split; [|done]. split.
  - simpl. by rewrite lookup_insert_eq.
  - simpl. rewrite Hpv. destruct (list.last l1) as [x|] eqn:El.
    + rewrite (rep_head _ _ _ _ R). by eapply head_app_cons_l.
    + apply last_None in El. subst. by rewrite Hnx.
  - simpl. rewrite Hnx. destruct (list.head l2) as [x|] eqn:El.
    + rewrite (rep_tail _ _ _ _ R). by eapply last_app_cons_r.
    + destruct l2; [|done]. rewrite Hpv. by rewrite app_nil_r.
  - simpl. rewrite (rep_length _ _ _ _ R). rewrite !length_app. simpl. lia.
  - simpl. apply dseg_app. split.
    + eapply (dseg_set_last _ _ _ _ _ (hd_or l2 None)); [exact Hd1 | done | |].
      * intros q Hq Hne. rewrite !alter_opt_lookup_ne; [done | |].
        -- by rewrite Hpv.
        -- rewrite Hnx. intros E. symmetry in E.
           apply head_Some_elem_of in E. by apply (Hdisj' q).
      * intros q m Hl Hm. rewrite alter_opt_lookup_ne.
        -- rewrite Hpv, Hl, alter_opt_lookup_eq, Hm. simpl.
           by rewrite Hnx, hd_or_None.
        -- rewrite Hnx. intros E. symmetry in E.
           apply head_Some_elem_of in E. apply last_Some_elem_of in Hl.
           by apply (Hdisj' q).
    + rewrite last_or_None.
      eapply (dseg_set_first _ _ _ (list.last l1)); [exact Hd2 | done | |].
      * intros q Hq Hne. rewrite !alter_opt_lookup_ne; [done | |].
        -- rewrite Hpv. intros E. symmetry in E.
           apply last_Some_elem_of in E. by apply (Hdisj' q).
        -- by rewrite Hnx.
      * intros q m Hl Hm. rewrite Hnx, Hl, alter_opt_lookup_eq.
        rewrite alter_opt_lookup_ne.
        -- rewrite Hm. simpl. by rewrite Hpv.
        -- rewrite Hpv. intros E. symmetry in E.
           apply last_Some_elem_of in E. apply head_Some_elem_of in Hl.
           by apply (Hdisj' q).
  - apply list.NoDup_app. repeat split; try done.
  - intros k' q. simpl.
    pose proof (removed_payload w this o n (Node.key n)) as Hpay.
    split.
    + intros Hq. apply lookup_delete_Some in Hq as [Hne Hq].
      apply (rep_cache _ _ _ _ R) in Hq as (Hin & m & Hm & Hkm).
      destruct (payload_lookup _ _ _ _ Hpay Hm) as (m' & Hm' & Hpm).
      split; [|exists m'; split; [done | by rewrite (payload_key _ _ Hpm)]].
      apply elem_of_app in Hin as [Hin | Hin]; [apply elem_of_app; by left|].
      apply elem_of_cons in Hin as [-> | Hin]; [|apply elem_of_app; by right].
      congruence.
    + intros (Hin & m' & Hm' & Hkm').
      assert (q ∈ l1 ++ p :: l2) as Hin'.
      { apply elem_of_app in Hin as [Hin | Hin]; apply elem_of_app;
          [by left | right; by right]. }
      assert (q ≠ p) as Hqp.
      { intros ->. apply elem_of_app in Hin as [Hin | Hin]; done. }
      destruct (dseg_lookup _ _ _ _ _ (rep_links _ _ _ _ R) Hin') as [m Hm].
      destruct (payload_lookup _ _ _ _ Hpay Hm) as (m'' & Hm'' & Hpm).
      assert (m'' = m') as -> by (simpl in Hm''; congruence).
      rewrite <- Hkm', (payload_key _ _ Hpm).
      apply lookup_delete_Some. split.
      * intros E. apply Hqp. symmetry.
        eapply (rep_key_inj _ _ _ _ p q); try done. apply elem_of_app. right. by left.
      * apply (rep_cache _ _ _ _ R). eauto.
Qed.

Lemma alter_opt_is_Some p f (h : gmap loc Node.t) q :
  is_Some (alter_opt p f h !! q) ↔ is_Some (h !! q).
Proof.
  destruct p as [r|]; simpl; [|done].
  rewrite lookup_alter. case_decide; subst; [|done].
  by rewrite fmap_is_Some.
Qed.

Lemma remove_rep_timers w this o l1 p l2 n :
  rep w this o (l1 ++ p :: l2) → rep_timers w this (l1 ++ p :: l2) →
  nodes w !! p = Some n →
  rep_timers (removed_world w this o n (Node.key n)) this (l1 ++ l2).
Proof.
  intros R T Hn.
  pose proof (removed_payload w this o n (Node.key n)) as Hpay.
  assert (p ∈ l1 ++ p :: l2) as Hp by (apply elem_of_app; right; by left).
  pose proof (rep_nodup _ _ _ _ R) as Hnd.
  assert (∀ q, q ∈ l1 ++ l2 → q ∈ l1 ++ p :: l2 ∧ q ≠ p) as Hsub.
  { intros q Hq. apply list.NoDup_app in Hnd as (_ & Hdisj & Hnd2).
    apply list.NoDup_cons in Hnd2 as [Hp2 _].
    apply elem_of_app in Hq as [Hq | Hq].
    - split; [apply elem_of_app; by left|]. intros ->.
      apply (Hdisj p Hq). by left.
    - split; [apply elem_of_app; right; by right|]. by intros ->. }
  destruct (rt_armed _ _ _ T p n Hp Hn) as (tp & Htp & Hop & Hkp).
  split.
  - intros q m' Hq Hm'. destruct (Hsub q Hq) as [Hq' Hne].
    destruct (dseg_lookup _ _ _ _ _ (rep_links _ _ _ _ R) Hq') as [m Hm].
    destruct (payload_lookup _ _ _ _ Hpay Hm) as (m'' & Hm'' & Hpm).
    assert (m'' = m') as -> by congruence.
    destruct (rt_armed _ _ _ T q m Hq' Hm) as (tm & Htm & Hom & Hkm).
    exists tm. rewrite (payload_timeout _ _ Hpm), (payload_key _ _ Hpm).
    repeat split; try done. simpl. apply lookup_delete_Some. split; [|done].
    intros E. apply Hne. rewrite E in Htp.
    eapply (rep_key_inj _ _ _ _ q p); try done. congruence.
  - intros h tm Hh Hobj. simpl in Hh. apply lookup_delete_Some in Hh as [Hne Hh].
    destruct (rt_owned _ _ _ T h tm Hh Hobj) as (q & m & Hq & Hm & Hto).
    destruct (payload_lookup _ _ _ _ Hpay Hm) as (m' & Hm' & Hpm).
    exists q, m'. rewrite (payload_timeout _ _ Hpm). repeat split; try done.
    apply elem_of_app in Hq as [Hq | Hq]; [apply elem_of_app; by left|].
    apply elem_of_cons in Hq as [-> | Hq]; [|apply elem_of_app; by right].
    congruence.
Qed.

Lemma remove_alloc_ok w this o n k :
  alloc_ok w → objs w !! this = Some o →
  alloc_ok (removed_world w this o n k).
Proof.
  intros A Ho. split; simpl.
  - intros q Hq. apply (ao_nodes _ A). by rewrite !alter_opt_is_Some in Hq.
  - intros h [tm Hh]. apply lookup_delete_Some in Hh as [_ Hh].
    apply (ao_timers _ A). eauto.
  - intros r [x Hr]. apply lookup_insert_Some in Hr as [[<- _] | [_ Hr]];
      apply (ao_objs _ A); eauto.
  - intros h tm Hh. apply lookup_delete_Some in Hh as [_ Hh].
    by apply (ao_closures _ A h).
Qed.

Lemma remove_frame w this o l1 p l2 n :
  rep w this o (l1 ++ p :: l2) → rep_timers w this (l1 ++ p :: l2) →
  nodes w !! p = Some n →
  frame this (l1 ++ p :: l2) w (removed_world w this o n (Node.key n)).
Proof.
  intros R T Hn.
  destruct (remove_rep _ _ _ _ _ _ _ _ R Hn eq_refl) as (_ & Hpv & Hnx).
  assert (p ∈ l1 ++ p :: l2) as Hp by (apply elem_of_app; right; by left).
  destruct (rt_armed _ _ _ T p n Hp Hn) as (tp & Htp & Hop & Hkp).
  split; simpl.
  - intros q Hq _. rewrite !alter_opt_lookup_ne; [done | |].
    + rewrite Hpv. intros E. symmetry in E. apply last_Some_elem_of in E.
      apply Hq. apply elem_of_app. by left.
    + rewrite Hnx. intros E. symmetry in E. apply head_Some_elem_of in E.
      apply Hq. apply elem_of_app. right. by right.
  - intros r Hr. by rewrite lookup_insert_ne.
  - intros h tm Hobj. rewrite lookup_delete_Some. split; [by intros [_ ?]|].
    intros Hh. split; [|done]. intros <-. congruence.
  - lia.
Qed.

Lemma remove_absent w this o k :
  objs w !! this = Some o → LRU.cache o !! k = None →
  LRU_remove this k w = Ok (tt, w).
Proof.
  intros Ho Hk. unfold LRU_remove, bind, get_obj. by rewrite Ho, Hk.
Qed.

(** [remove] of a key of the index, on a well-formed cache. *)
Lemma remove_spec w this o l k p :
  rep w this o l → rep_timers w this l → alloc_ok w →
  LRU.cache o !! k = Some p →
  ∃ n l1 l2,
    l = l1 ++ p :: l2 ∧ nodes w !! p = Some n ∧ Node.key n = k ∧
    let w' := removed_world w this o n k in
    LRU_remove this k w = Ok (tt, w') ∧
    rep w' this (removed_obj o n k) (l1 ++ l2) ∧
    rep_timers w' this (l1 ++ l2) ∧ alloc_ok w' ∧ frame this l w w'.
Proof.
  intros R T A Hk.
  pose proof Hk as Hk'.
  apply (rep_cache _ _ _ _ R) in Hk' as (Hin & n & Hn & Hkn).
  apply list_elem_of_split in Hin as (l1 & l2 & ->).
  exists n, l1, l2. subst k.
  destruct (remove_rep _ _ _ _ _ _ _ _ R Hn eq_refl) as (R' & Hpv & Hnx).
  pose proof (rep_nodup _ _ _ _ R) as Hnd.
  apply list.NoDup_app in Hnd as (_ & Hdisj & _).
  simpl. split_and!; try done.
  - apply (remove_exec _ _ _ _ p); try done; try apply (rep_obj _ _ _ _ R).
    + rewrite Hpv. intros E. apply last_Some_elem_of in E.
      apply (Hdisj p E). by left.
    + intros pp E. rewrite Hpv in E. apply last_Some_elem_of in E.
      eapply dseg_lookup; [apply (rep_links _ _ _ _ R)|].
      apply elem_of_app. by left.
    + intros nn E. rewrite Hnx in E. apply head_Some_elem_of in E.
      eapply dseg_lookup; [apply (rep_links _ _ _ _ R)|].
      apply elem_of_app. right. by right.
  - by eapply remove_rep_timers.
  - apply remove_alloc_ok; [done | apply (rep_obj _ _ _ _ R)].
  - by apply remove_frame.
Qed.

(** ** What the second half of [write] computes *)

Lemma LRU_write_unfold this key val timeLimit :
  LRU_write this key val timeLimit =
  (let* o := get_obj this in
   (match LRU.cache o !! key with
    | Some _ => LRU_remove this key
    | None => ret tt
    end) >>>
   let* full := LRU_isAtLimit this in
   (if full : bool then
      let* o := get_obj this in
      match LRU.tail o with
      | Some t => let* n := get_node t in LRU_remove this (Node.key n)
      | None => throw TypeError
      end
    else ret tt) >>>
   LRU_write_push this key val timeLimit).
Proof. reflexivity. Qed.

Lemma push_exec w this o key val timeLimit :
  objs w !! this = Some o →
  (LRU.length o ≠ 0 → ∃ h, LRU.head o = Some h ∧ is_Some (nodes w !! h) ∧
                            h ≠ next_loc w) →
  LRU_write_push this key val timeLimit w =
  Ok (tt, pushed_world w this o key val timeLimit).
Proof.
  intros Ho Hh. unfold LRU_write_push, bind, get_obj, setTimeout. rewrite Ho.
  simpl. rewrite Ho. unfold pushed_world, pushed_obj, pushed_node.
  destruct (Z.eqb_spec (LRU.length o) 0) as [E|E].
  - unfold new_node, upd_obj. repeat (progress (simpl; rewrite ?Ho, ?lookup_insert_eq)).
    f_equal. f_equal. apply world_eq; simpl; try done.
    rewrite !insert_insert_eq. cbn. by rewrite E.
  - destruct (Hh E) as (h & Hhd & [m Hm] & Hne).
    unfold new_node, upd_node, upd_obj. rewrite Hhd.
    repeat (progress (simpl; rewrite ?Ho, ?lookup_insert_eq)).
    rewrite lookup_insert_ne, Hm by done.
    repeat (progress (simpl; rewrite ?Ho, ?lookup_insert_eq)).
    f_equal. f_equal. apply world_eq; simpl; try done.
    + apply (insert_as_alter _ _ _ (λ m, Node.set_prev m (Some (next_loc w)))).
      by rewrite lookup_insert_ne.
    + rewrite !insert_insert_eq. done.
Qed.

Lemma rep_length_0 w this o l :
  rep w this o l → (LRU.length o =? 0) = bool_decide (l = []).
Proof.
  intros R. rewrite (rep_length _ _ _ _ R). destruct l as [|q l].
  - by rewrite bool_decide_eq_true_2.
  - rewrite bool_decide_eq_false_2 by done. apply Z.eqb_neq. simpl. lia.
Qed.

Lemma rep_in_heap w this o l q :
  rep w this o l → q ∈ l → is_Some (nodes w !! q).
Proof. intros R. apply dseg_lookup with None None, R. Qed.

Lemma rep_below w this o l q :
  rep w this o l → alloc_ok w → q ∈ l → (q < next_loc w)%nat.
Proof. intros R A Hq. apply (ao_nodes _ A). by eapply rep_in_heap. Qed.

Lemma pushed_nodes_rep w this o l key val timeLimit :
  rep w this o l →
  nodes (pushed_world w this o key val timeLimit) =
  alter_opt (list.head l) (λ m, Node.set_prev m (Some (next_loc w)))
    (<[next_loc w := Node.mk key val None (list.head l) (next_tid w)]> (nodes w)).
Proof.
  intros R. unfold pushed_world, pushed_node. simpl.
  rewrite (rep_length_0 _ _ _ _ R), (rep_head _ _ _ _ R).
  destruct l; done.
Qed.

Lemma pushed_lookup_new w this o l key val timeLimit :
  rep w this o l → alloc_ok w →
  nodes (pushed_world w this o key val timeLimit) !! next_loc w =
  Some (Node.mk key val None (list.head l) (next_tid w)).
Proof.
  intros R A. rewrite (pushed_nodes_rep _ _ _ l) by done.
  rewrite alter_opt_lookup_ne, lookup_insert_eq; [done|].
  intros E. symmetry in E. apply head_Some_elem_of in E.
  pose proof (rep_below _ _ _ _ _ R A E). lia.
Qed.

Lemma pushed_old w this o l key val timeLimit q n :
  rep w this o l → alloc_ok w → nodes w !! q = Some n →
  ∃ n', nodes (pushed_world w this o key val timeLimit) !! q = Some n' ∧
        payload n' = payload n ∧
        (Some q ≠ list.head l → n' = n) ∧
        (Some q = list.head l → n' = Node.set_prev n (Some (next_loc w))).
Proof.
  intros R A Hq. rewrite (pushed_nodes_rep _ _ _ l) by done.
  assert (q ≠ next_loc w) as Hne.
  { intros ->. pose proof (ao_nodes _ A _ (mk_is_Some _ _ Hq)). lia. }
  destruct (decide (Some q = list.head l)) as [E|E].
  - rewrite <- E, alter_opt_lookup_eq, lookup_insert_ne, Hq by done. simpl.
    eexists. split_and!; done.
  - rewrite alter_opt_lookup_ne, lookup_insert_ne, Hq by done.
    eexists. split_and!; done.
Qed.

(** The second half of [write] on a well-formed cache that does not hold
    the key. *)
Lemma push_spec w this o l key val timeLimit :
  rep w this o l → rep_timers w this l → alloc_ok w →
  LRU.cache o !! key = None →
  let w' := pushed_world w this o key val timeLimit in
  LRU_write_push this key val timeLimit w = Ok (tt, w') ∧
  stepped this w o l w' (pushed_obj w o key) (next_loc w :: l).
Proof.
  intros R T A Hk w'.
  pose proof (pushed_lookup_new _ _ _ _ key val timeLimit R A) as Hnew.
  fold w' in Hnew.
  assert (∀ q n, nodes w !! q = Some n → q ≠ next_loc w) as Hfresh.
  { intros q n Hq ->. pose proof (ao_nodes _ A _ (mk_is_Some _ _ Hq)). lia. }
  assert (∀ h tm, timers w !! h = Some tm → h ≠ next_tid w) as Hfresht.
  { intros h tm Hh ->. pose proof (ao_timers _ A _ (mk_is_Some _ _ Hh)). lia. }
  assert (∀ q n, nodes w !! q = Some n →
            ∃ n', nodes w' !! q = Some n' ∧ payload n' = payload n ∧
                  (Some q ≠ list.head l → n' = n) ∧
                  (Some q = list.head l →
                   n' = Node.set_prev n (Some (next_loc w)))) as Hold.
  { intros q n Hn. by eapply pushed_old. }
  assert (∀ q n', q ∈ l → nodes w' !! q = Some n' →
            ∃ n, nodes w !! q = Some n ∧ payload n' = payload n) as Hback.
  { intros q n' Hq Hn'. destruct (rep_in_heap _ _ _ _ _ R Hq) as [n Hn].
    destruct (Hold _ _ Hn) as (n'' & Hn'' & Hp & _).
    exists n. split; [done | congruence]. }
  assert (∀ q, is_Some (nodes w' !! q) →
            q = next_loc w ∨ is_Some (nodes w !! q)) as Hdom.
  { intros q Hq. unfold w' in Hq. simpl in Hq. rewrite alter_opt_is_Some in Hq.
    destruct Hq as [n Hq]. apply lookup_insert_Some in Hq as [[<- _] | [_ Hq]];
      eauto. }
  assert (∀ q, q ∉ l → (q < next_loc w)%nat →
            nodes w' !! q = nodes w !! q) as Hframe.
  { intros q Hq Hlt. unfold w'. rewrite (pushed_nodes_rep _ _ _ l) by done.
    rewrite alter_opt_lookup_ne, lookup_insert_ne; [done | lia |].
    intros E. symmetry in E. apply head_Some_elem_of in E. done. }
  assert (LRU_write_push this key val timeLimit w = Ok (tt, w')) as Hexec.
  { apply push_exec; [apply R|]. intros Hlen.
    destruct l as [|h l'].
    - rewrite (rep_length _ _ _ _ R) in Hlen. done.
    - exists h. split; [apply R|]. split.
      + eapply rep_in_heap; [done | by left].
      + assert (h ∈ h :: l') as Hin by by left.
        pose proof (rep_below _ _ _ _ h R A Hin). lia. }
  assert (objs w' = <[this := pushed_obj w o key]> (objs w)) as Eobjs by done.
  assert (timers w' = <[next_tid w := Timer.mk this key
            (or_default timeLimit (LRU.timeLimit o)) (now w)]> (timers w))
    as Etimers by done.
  assert (next_loc w' = S (next_loc w)) as Eloc by done.
  assert (next_tid w' = S (next_tid w)) as Etid by done.
  assert (next_oid w' = next_oid w) as Eoid by done.
  assert (now w' = now w) as Enow by done.
  clearbody w'. split; [done|]. split.
  - (* rep *)
    split.
    + by rewrite Eobjs, lookup_insert_eq.
    + done.
    + simpl. rewrite (rep_length_0 _ _ _ _ R), (rep_tail _ _ _ _ R).
      destruct l; [done|]. rewrite bool_decide_eq_false_2 by done. done.
    + simpl. rewrite (rep_length _ _ _ _ R). lia.
    + cbn [dseg]. exists (Node.mk key val None (list.head l) (next_tid w)).
      split_and!; try done; try (simpl; by destruct l).
      eapply (dseg_set_first _ _ None); [apply R | apply R | |].
      * intros q Hq Hne. destruct (rep_in_heap _ _ _ _ _ R Hq) as [n Hn].
        destruct (Hold _ _ Hn) as (n' & Hn' & _ & Hsame & _).
        rewrite Hn', Hn. f_equal. by apply Hsame.
      * intros q n Hq Hn.
        destruct (Hold _ _ Hn) as (n' & Hn' & _ & _ & Hset).
        rewrite Hn'. f_equal. by apply Hset.
    + apply list.NoDup_cons. split; [|apply R].
      intros Hin. pose proof (rep_below _ _ _ _ _ R A Hin). lia.
    + intros k' q. simpl. rewrite lookup_insert_Some. split.
      * intros [[<- <-] | [Hne Hq]].
        -- split; [by left|]. eexists. split; [exact Hnew | done].
        -- apply (rep_cache _ _ _ _ R) in Hq as (Hin & n & Hn & Hkn).
           split; [by right|].
           destruct (Hold _ _ Hn) as (n' & Hn' & Hp & _).
           exists n'. split; [done|]. by rewrite (payload_key _ _ Hp).
      * intros (Hin & n' & Hn' & Hkn').
        apply elem_of_cons in Hin as [-> | Hin].
        -- left. rewrite Hnew in Hn'. by simplify_eq.
        -- right. destruct (Hback _ _ Hin Hn') as (n & Hn & Hp).
           assert (LRU.cache o !! k' = Some q) as Hc.
           { apply (rep_cache _ _ _ _ R). split; [done|]. exists n.
             split; [done|]. by rewrite <- (payload_key _ _ Hp). }
           split; [congruence | done].
  - (* timers *)
    split.
    + intros q n' Hq Hn'. rewrite Etimers. apply elem_of_cons in Hq as [-> | Hq].
      * rewrite Hnew in Hn'. simplify_eq. simpl.
        rewrite lookup_insert_eq. eexists. split_and!; done.
      * destruct (Hback _ _ Hq Hn') as (n & Hn & Hp).
        destruct (rt_armed _ _ _ T q n Hq Hn) as (tm & Htm & Hobj & Hkey).
        rewrite (payload_timeout _ _ Hp), (payload_key _ _ Hp).
        exists tm. split_and!; try done.
        rewrite lookup_insert_ne; [done|]. intros E. by eapply Hfresht.
    + intros h tm Hh Hobj. rewrite Etimers in Hh.
      apply lookup_insert_Some in Hh as [[<- <-] | [Hne Hh]].
      * exists (next_loc w). eexists. split_and!; [by left | exact Hnew | done].
      * destruct (rt_owned _ _ _ T h tm Hh Hobj) as (q & n & Hq & Hn & Hto).
        destruct (Hold _ _ Hn) as (n' & Hn' & Hp & _).
        exists q, n'. split_and!; [by right | done |].
        by rewrite (payload_timeout _ _ Hp).
  - (* alloc_ok *)
    split; rewrite ?Eloc, ?Etid, ?Eoid, ?Eobjs, ?Etimers.
    + intros q Hq. destruct (Hdom q Hq) as [-> | Hq']; [lia|].
      pose proof (ao_nodes _ A q Hq'). lia.
    + intros h [tm Hh]. apply lookup_insert_Some in Hh as [[<- _] | [_ Hh]].
      * lia.
      * pose proof (ao_timers _ A h (mk_is_Some _ _ Hh)). lia.
    + intros r [x Hr]. apply lookup_insert_Some in Hr as [[<- _] | [_ Hr]].
      * apply (ao_objs _ A). exists o. apply R.
      * apply (ao_objs _ A). eauto.
    + intros h tm Hh. apply lookup_insert_Some in Hh as [[<- <-] | [_ Hh]].
      * simpl. apply (ao_objs _ A). exists o. apply R.
      * by apply (ao_closures _ A h).
  - (* frame *)
    split; rewrite ?Eloc, ?Etid, ?Eoid, ?Eobjs, ?Etimers.
    + done.
    + intros r Hr. by rewrite lookup_insert_ne.
    + intros h tm Hobj. rewrite lookup_insert_Some. split.
      * intros [[_ <-] | [_ Hh]]; done.
      * intros Hh. right. split; [|done]. intros E. symmetry in E.
        by eapply Hfresht.
    + lia.
  - done.
  - done.
  - done.
  - done.
  - done.
  - lia.
  - intros q Hq. apply elem_of_cons in Hq as [-> | Hq]; [right; lia | by left].
  - intros q n Hn. destruct (Hold _ _ Hn) as (n' & Hn' & Hp & _). eauto.
  - intros h tm Hh Hlt. rewrite Etimers in Hh.
    apply lookup_insert_Some in Hh as [[<- _] | [_ Hh]]; [lia | done].
  - intros h tm Hh Hle. rewrite Etimers in Hh.
    apply lookup_insert_Some in Hh as [[_ <-] | [_ Hh]]; [done|].
    pose proof (ao_timers _ A h (mk_is_Some _ _ Hh)). lia.
Qed.

(** ** Composing calls on one cache *)

Lemma stepped_refl w this o l :
  rep w this o l → rep_timers w this l → alloc_ok w →
  stepped this w o l w o l.
Proof.
  intros R T A. split; try done.
  - intros q Hq. by left.
  - intros q n Hn. eauto.
  - intros h tm Hh Hle. pose proof (ao_timers _ A h (mk_is_Some _ _ Hh)). lia.
Qed.

Lemma stepped_trans this w o l w1 o1 l1 w2 o2 l2 :
  stepped this w o l w1 o1 l1 → stepped this w1 o1 l1 w2 o2 l2 →
  stepped this w o l w2 o2 l2.
Proof.
  intros S1 S2.
  pose proof (fr_loc _ _ _ _ (st_frame _ _ _ _ _ _ _ S1)) as Hloc1.
  pose proof (st_tid _ _ _ _ _ _ _ S1) as Htid1.
  split.
  - apply S2.
  - apply S2.
  - apply S2.
  - split.
    + intros q Hq Hlt.
      rewrite (fr_nodes _ _ _ _ (st_frame _ _ _ _ _ _ _ S2)).
      * by apply (fr_nodes _ _ _ _ (st_frame _ _ _ _ _ _ _ S1)).
      * intros Hq1. destruct (st_list _ _ _ _ _ _ _ S1 q Hq1); [done | lia].
      * lia.
    + intros r Hr. rewrite (fr_objs _ _ _ _ (st_frame _ _ _ _ _ _ _ S2)) by done.
      by apply (fr_objs _ _ _ _ (st_frame _ _ _ _ _ _ _ S1)).
    + intros h tm Hobj.
      rewrite (fr_timers _ _ _ _ (st_frame _ _ _ _ _ _ _ S2)) by done.
      by apply (fr_timers _ _ _ _ (st_frame _ _ _ _ _ _ _ S1)).
    + pose proof (fr_loc _ _ _ _ (st_frame _ _ _ _ _ _ _ S2)). lia.
  - rewrite (st_limit _ _ _ _ _ _ _ S2). apply S1.
  - rewrite (st_timeLimit _ _ _ _ _ _ _ S2). apply S1.
  - rewrite (st_ext _ _ _ _ _ _ _ S2). apply S1.
  - rewrite (st_oid _ _ _ _ _ _ _ S2). apply S1.
  - rewrite (st_now _ _ _ _ _ _ _ S2). apply S1.
  - pose proof (st_tid _ _ _ _ _ _ _ S2). lia.
  - intros q Hq. destruct (st_list _ _ _ _ _ _ _ S2 q Hq) as [Hq1 | Hq1].
    + by apply (st_list _ _ _ _ _ _ _ S1).
    + right. lia.
  - intros q n Hn.
    destruct (st_old_nodes _ _ _ _ _ _ _ S1 q n Hn) as (n1 & Hn1 & Hp1).
    destruct (st_old_nodes _ _ _ _ _ _ _ S2 q n1 Hn1) as (n2 & Hn2 & Hp2).
    exists n2. split; [done | congruence].
  - intros h tm Hh Hlt. apply (st_old_timers _ _ _ _ _ _ _ S1); [|done].
    apply (st_old_timers _ _ _ _ _ _ _ S2); [done | lia].
  - intros h tm Hh Hle. destruct (decide (h < next_tid w1)%nat) as [Hlt | Hge].
    + apply (st_new_timers _ _ _ _ _ _ _ S1 h); [|done].
      by apply (st_old_timers _ _ _ _ _ _ _ S2).
    + apply (st_new_timers _ _ _ _ _ _ _ S2 h); [done | lia].
Qed.

Lemma remove_stepped w this o l k p :
  rep w this o l → rep_timers w this l → alloc_ok w →
  LRU.cache o !! k = Some p →
  ∃ n l1 l2,
    l = l1 ++ p :: l2 ∧ nodes w !! p = Some n ∧ Node.key n = k ∧
    LRU_remove this k w = Ok (tt, removed_world w this o n k) ∧
    stepped this w o l (removed_world w this o n k) (removed_obj o n k)
      (l1 ++ l2).
Proof.
  intros R T A Hk.
  destruct (remove_spec _ _ _ _ _ _ R T A Hk)
    as (n & l1 & l2 & -> & Hn & Hkn & Hex & R' & T' & A' & F').
  exists n, l1, l2. split_and!; try done. split; try done.
  - intros q Hq. left. apply elem_of_app in Hq as [Hq | Hq]; apply elem_of_app;
      [by left | right; by right].
  - intros q m Hm. apply payload_lookup with (nodes w); [|done].
    apply removed_payload.
  - intros h tm Hh _. simpl in Hh. by apply lookup_delete_Some in Hh as [_ Hh].
  - intros h tm Hh Hle. simpl in Hh. apply lookup_delete_Some in Hh as [_ Hh].
    pose proof (ao_timers _ A h (mk_is_Some _ _ Hh)). lia.
Qed.

Lemma write_phase1 w this o l key :
  rep w this o l → rep_timers w this l → alloc_ok w →
  ∃ w1 o1 la,
    (match LRU.cache o !! key with
     | Some _ => LRU_remove this key
     | None => ret tt
     end) w = Ok (tt, w1) ∧
    stepped this w o l w1 o1 la ∧
    next_loc w1 = next_loc w ∧ next_tid w1 = next_tid w ∧
    LRU.cache o1 !! key = None ∧ unlinked o l key la ∧
    (∀ p n, LRU.cache o !! key = Some p → nodes w !! p = Some n →
            timers w1 !! Node.timeout n = None).
Proof.
  intros R T A. destruct (LRU.cache o !! key) as [p|] eqn:Hk.
  - destruct (remove_stepped _ _ _ _ _ _ R T A Hk)
      as (n & l1 & l2 & -> & Hn & Hkn & Hex & St).
    eexists _, _, _. split_and!; try done.
    + simpl. apply lookup_delete_eq.
    + right. by exists p, l1, l2.
    + intros p' n' [= <-] Hn'. simpl. assert (n' = n) as -> by congruence.
      apply lookup_delete_eq.
  - exists w, o, l. split_and!; try done.
    + by apply stepped_refl.
    + by left.
Qed.

Lemma last_unique {A} (l1 l2 : list A) t :
  NoDup (l1 ++ t :: l2) → list.last (l1 ++ t :: l2) = Some t → l2 = [].
Proof.
  intros Hnd Hl. destruct l2 as [|x l2]; [done|].
  rewrite last_app_cons in Hl.
  change (list.last (t :: x :: l2)) with (list.last (x :: l2)) in Hl.
  apply last_Some_elem_of in Hl.
  apply list.NoDup_app in Hnd as (_ & _ & Hnd).
  apply list.NoDup_cons in Hnd as [Hnd _]. done.
Qed.

Lemma write_phase2 w this o l key :
  rep w this o l → rep_timers w this l → alloc_ok w →
  LRU.limit o ≠ 0 → LRU.cache o !! key = None →
  ∃ w2 o2 lb,
    LRU_isAtLimit this w = Ok (LRU.length o =? LRU.limit o, w) ∧
    (if LRU.length o =? LRU.limit o then
       let* o := get_obj this in
       match LRU.tail o with
       | Some t => let* n := get_node t in LRU_remove this (Node.key n)
       | None => throw TypeError
       end
     else ret tt) w = Ok (tt, w2) ∧
    stepped this w o l w2 o2 lb ∧
    next_loc w2 = next_loc w ∧ next_tid w2 = next_tid w ∧
    LRU.cache o2 !! key = None ∧ evicted (LRU.limit o) l lb ∧
    (LRU.length o ≤ LRU.limit o → LRU.length o2 < LRU.limit o).
Proof.
  intros R T A Hlim Hk.
  assert (LRU_isAtLimit this w = Ok (LRU.length o =? LRU.limit o, w)) as Hat.
  { unfold LRU_isAtLimit. unfold bind, get_obj, ret.
    by rewrite (rep_obj _ _ _ _ R). }
  unfold bind, get_obj, ret.
  destruct (Z.eqb_spec (LRU.length o) (LRU.limit o)) as [E|E].
  - rewrite (rep_obj _ _ _ _ R). rewrite (rep_tail _ _ _ _ R).
    destruct (list.last l) as [t|] eqn:El.
    2:{ apply last_None in El. subst l.
        rewrite (rep_length _ _ _ _ R) in E. simpl in E. lia. }
    pose proof (last_Some_elem_of _ _ El) as Hin.
    destruct (rep_in_heap _ _ _ _ _ R Hin) as [n Hn].
    unfold get_node. rewrite Hn.
    assert (LRU.cache o !! Node.key n = Some t) as Hkt.
    { apply (rep_cache _ _ _ _ R). eauto. }
    destruct (remove_stepped _ _ _ _ _ _ R T A Hkt)
      as (n' & l1 & l2 & -> & Hn' & Hkn & Hex & St).
    assert (n' = n) as -> by congruence.
    pose proof (last_unique _ _ _ (rep_nodup _ _ _ _ R) El) as ->.
    rewrite app_nil_r in St.
    eexists _, _, l1. split_and!; try done.
    + simpl. by apply lookup_delete_None; right.
    + right. split; [|by exists t]. by rewrite <- (rep_length _ _ _ _ R).
    + simpl. lia.
  - exists w, o, l. split_and!; try done.
    + by apply stepped_refl.
    + left. split; [|done]. by rewrite <- (rep_length _ _ _ _ R).
    + lia.
Qed.

Lemma bind_ok {A B} (m : M A) (f : A → M B) w a w1 :
  m w = Ok (a, w1) → bind m f w = f a w1.
Proof. intros H. unfold bind. by rewrite H. Qed.

Lemma unlinked_length o l key la :
  unlinked o l key la → (length la ≤ length l)%nat.
Proof.
  intros [[_ ->] | (p & l1 & l2 & _ & -> & ->)]; [done|].
  rewrite !length_app. simpl. lia.
Qed.

(** [write] on a well-formed cache whose limit is not zero. *)
Lemma write_spec w this o l key val tl :
  rep w this o l → rep_timers w this l → alloc_ok w → LRU.limit o ≠ 0 →
  ∃ w' o' la lb,
    LRU_write this key val tl w = Ok (tt, w') ∧
    stepped this w o l w' o' (next_loc w :: lb) ∧
    next_loc w' = S (next_loc w) ∧ next_tid w' = S (next_tid w) ∧
    nodes w' !! next_loc w =
      Some (Node.mk key val None (list.head lb) (next_tid w)) ∧
    timers w' !! next_tid w =
      Some (Timer.mk this key (or_default tl (LRU.timeLimit o)) (now w)) ∧
    unlinked o l key la ∧ evicted (LRU.limit o) la lb ∧
    (LRU.length o ≤ LRU.limit o → LRU.length o' ≤ LRU.limit o) ∧
    (∀ p n, LRU.cache o !! key = Some p → nodes w !! p = Some n →
            timers w' !! Node.timeout n = None).
Proof.
  intros R T A Hlim.
  destruct (write_phase1 _ _ _ _ key R T A)
    as (w1 & o1 & la & Hex1 & S1 & Hloc1 & Htid1 & Hk1 & Hun & Hcancel).
  pose proof (st_rep _ _ _ _ _ _ _ S1) as R1.
  pose proof (st_timers _ _ _ _ _ _ _ S1) as T1.
  pose proof (st_alloc _ _ _ _ _ _ _ S1) as A1.
  assert (LRU.limit o1 ≠ 0) as Hlim1 by by rewrite (st_limit _ _ _ _ _ _ _ S1).
  destruct (write_phase2 _ _ _ _ key R1 T1 A1 Hlim1 Hk1)
    as (w2 & o2 & lb & Hat & Hex2 & S2 & Hloc2 & Htid2 & Hk2 & Hev & Hlt).
  pose proof (st_rep _ _ _ _ _ _ _ S2) as R2.
  pose proof (st_timers _ _ _ _ _ _ _ S2) as T2.
  pose proof (st_alloc _ _ _ _ _ _ _ S2) as A2.
  destruct (push_spec _ _ _ _ key val tl R2 T2 A2 Hk2) as [Hex3 S3].
  pose proof (stepped_trans _ _ _ _ _ _ _ _ _ _ S2 S3) as S23.
  pose proof (stepped_trans _ _ _ _ _ _ _ _ _ _ S1 S23) as S13.
  exists (pushed_world w2 this o2 key val tl), (pushed_obj w2 o2 key), la, lb.
  split_and!.
  - rewrite LRU_write_unfold.
    rewrite (bind_ok _ _ w o w).
    2:{ unfold get_obj. by rewrite (rep_obj _ _ _ _ R). }
    cbv beta. rewrite (bind_ok _ _ _ _ _ Hex1).
    cbv beta. rewrite (bind_ok _ _ _ _ _ Hat).
    rewrite (bind_ok _ _ _ _ _ Hex2). done.
  - by rewrite <- Hloc1, <- Hloc2.
  - simpl. by rewrite Hloc2, Hloc1.
  - simpl. by rewrite Htid2, Htid1.
  - rewrite <- Hloc1, <- Hloc2, <- Htid1, <- Htid2.
    by apply (pushed_lookup_new _ _ _ lb).
  - simpl. rewrite <- Htid1, <- Htid2, lookup_insert_eq.
    rewrite (st_timeLimit _ _ _ _ _ _ _ S2), (st_timeLimit _ _ _ _ _ _ _ S1).
    rewrite (st_now _ _ _ _ _ _ _ S2), (st_now _ _ _ _ _ _ _ S1). done.
  - done.
  - by rewrite <- (st_limit _ _ _ _ _ _ _ S1).
  - intros Hle. simpl.
    rewrite (st_limit _ _ _ _ _ _ _ S1) in Hlt.
    assert (LRU.length o1 ≤ LRU.limit o) as H1.
    { rewrite (rep_length _ _ _ _ R1). rewrite (rep_length _ _ _ _ R) in Hle.
      pose proof (unlinked_length _ _ _ _ Hun). lia. }
    specialize (Hlt H1). lia.
  - intros p n Hp Hn. specialize (Hcancel p n Hp Hn).
    destruct (timers (pushed_world w2 this o2 key val tl) !! Node.timeout n)
      as [tm|] eqn:E; [|done].
    assert (p ∈ l) as Hin by (apply (rep_cache _ _ _ _ R) in Hp; tauto).
    destruct (rt_armed _ _ _ T p n Hin Hn) as (tm0 & Htm0 & _).
    pose proof (ao_timers _ A _ (mk_is_Some _ _ Htm0)) as Hb.
    rewrite <- Htid1 in Hb.
    rewrite (st_old_timers _ _ _ _ _ _ _ S23 _ _ E Hb) in Hcancel. done.
Qed.

(** ** Timers that fire, and [read] *)

(** A timer of a well-formed cache that fires does what [remove] of its key
    does. *)
Lemma fire_spec w this o l h tm :
  rep w this o l → rep_timers w this l → alloc_ok w →
  timers w !! h = Some tm → Timer.obj tm = this →
  ∃ p n l1 l2,
    l = l1 ++ p :: l2 ∧ nodes w !! p = Some n ∧ Node.timeout n = h ∧
    Node.key n = Timer.key tm ∧ LRU.cache o !! Timer.key tm = Some p ∧
    fire h w = Ok (tt, removed_world w this o n (Timer.key tm)) ∧
    stepped this w o l (removed_world w this o n (Timer.key tm))
      (removed_obj o n (Timer.key tm)) (l1 ++ l2).
Proof.
  intros R T A Hh Hobj.
  destruct (rt_owned _ _ _ T h tm Hh Hobj) as (p & n & Hp & Hn & Hto).
  destruct (rt_armed _ _ _ T p n Hp Hn) as (tm' & Htm' & _ & Hkey).
  assert (tm' = tm) as -> by congruence.
  assert (LRU.cache o !! Timer.key tm = Some p) as Hk.
  { apply (rep_cache _ _ _ _ R). eauto. }
  destruct (remove_stepped _ _ _ _ _ _ R T A Hk)
    as (n' & l1 & l2 & -> & Hn' & Hkn & Hex & St).
  assert (n' = n) as -> by congruence.
  exists p, n, l1, l2. split_and!; try done.
  unfold fire. rewrite Hh, Hobj.
  pose proof (remove_rep _ _ _ _ _ _ _ _ R Hn (eq_sym Hkey)) as (_ & Hpv & Hnx).
  pose proof (rep_nodup _ _ _ _ R) as Hnd.
  apply list.NoDup_app in Hnd as (_ & Hdisj & _).
  rewrite (remove_exec _ this o (Timer.key tm) p n); simpl; try done.
  - f_equal. f_equal. apply world_eq; simpl; try done.
    rewrite Hto. apply map_eq. intros i. rewrite !lookup_delete.
    by case_decide.
  - apply R.
  - rewrite Hpv. intros E. apply last_Some_elem_of in E.
    apply (Hdisj p E). by left.
  - intros pp E. rewrite Hpv in E. apply last_Some_elem_of in E.
    eapply rep_in_heap; [done|]. apply elem_of_app. by left.
  - intros nn E. rewrite Hnx in E. apply head_Some_elem_of in E.
    eapply rep_in_heap; [done|]. apply elem_of_app. right. by right.
Qed.

Lemma read_absent w this o key :
  objs w !! this = Some o → LRU.cache o !! key = None →
  LRU_read this key w = Ok (JUndefined, w).
Proof.
  intros Ho Hk. unfold LRU_read, bind, get_obj, ret. by rewrite Ho, Hk.
Qed.


(** ** The invariant of a one-cache program *)

Lemma NoDup_bounded_length (l : list nat) (n : nat) :
  NoDup l → (∀ x, x ∈ l → (x < n)%nat) → (length l ≤ n)%nat.
Proof.
  intros Hnd Hb. transitivity (length (seq 0%nat n)); [|by rewrite length_seq].
  apply submseteq_length, NoDup_submseteq; [done|].
  intros x Hx. apply elem_of_seq. specialize (Hb x Hx). lia.
Qed.

Lemma rep_lru_list w this o l :
  rep w this o l → alloc_ok w → lru_list w this = l.
Proof.
  intros R A. unfold lru_list. rewrite (rep_obj _ _ _ _ R), (rep_head _ _ _ _ R).
  apply walk_dseg with None; [apply R|].
  apply NoDup_bounded_length; [apply R|].
  intros x Hx. by eapply rep_below.
Qed.













(** ** What the observers see of a well-formed cache *)


Lemma index_node_Some w this o l key p n :
  rep w this o l → LRU.cache o !! key = Some p → nodes w !! p = Some n →
  index_node w this key = Some n.
Proof.
  intros R Hk Hn. unfold index_node. rewrite (rep_obj _ _ _ _ R). simpl.
  rewrite Hk. simpl. done.
Qed.

Lemma index_node_None w this o l key :
  rep w this o l → LRU.cache o !! key = None → index_node w this key = None.
Proof.
  intros R Hk. unfold index_node. rewrite (rep_obj _ _ _ _ R). simpl.
  by rewrite Hk.
Qed.

Lemma index_node_inv w this o l key n :
  rep w this o l → index_node w this key = Some n →
  ∃ p, LRU.cache o !! key = Some p ∧ nodes w !! p = Some n ∧ p ∈ l ∧
       Node.key n = key.
Proof.
  intros R H. unfold index_node in H. rewrite (rep_obj _ _ _ _ R) in H.
  simpl in H. destruct (LRU.cache o !! key) as [p|] eqn:Hk; [|done].
  simpl in H. exists p. split_and!; try done.
  - apply (rep_cache _ _ _ _ R) in Hk. tauto.
  - apply (rep_cache _ _ _ _ R) in Hk as (_ & m & Hm & Hkm). congruence.
Qed.




(** The pending timers for a key of a well-formed cache: the one of its
    entry, if it has one. *)
Lemma pending_spec w this o l key :
  rep w this o l → rep_timers w this l →
  match index_node w this key with
  | Some n => pending_for w this key = [Node.timeout n]
  | None => pending_for w this key = []
  end.
Proof.
  intros R T. unfold pending_for.
  destruct (index_node w this key) as [n|] eqn:Hi.
  - destruct (index_node_inv _ _ _ _ _ _ R Hi) as (p & Hk & Hn & Hp & Hkn).
    destruct (rt_armed _ _ _ T p n Hp Hn) as (tm & Htm & Hobj & Hkey).
    assert (filter (λ e : tid * Timer.t,
                      Timer.obj e.2 = this ∧ Timer.key e.2 = key) (timers w)
            = {[Node.timeout n := tm]}) as ->.
    { apply map_eq. intros h. apply option_eq. intros x.
      rewrite map_lookup_filter_Some, lookup_singleton_Some. simpl. split.
      - intros (Hh & Hox & Hkx).
        destruct (rt_owned _ _ _ T h x Hh Hox) as (q & m & Hq & Hm & Hto).
        destruct (rt_armed _ _ _ T q m Hq Hm) as (x' & Hx' & _ & Hkx').
        assert (x' = x) as -> by congruence.
        assert (q = p) as ->.
        { eapply (rep_key_inj _ _ _ _ q p); try done. congruence. }
        assert (m = n) as -> by congruence.
        split; [done | congruence].
      - intros [<- <-]. split_and!; try done. congruence. }
    by rewrite map_to_list_singleton.
  - assert (filter (λ e : tid * Timer.t,
                      Timer.obj e.2 = this ∧ Timer.key e.2 = key) (timers w)
            = ∅) as ->.
    { apply map_eq. intros h. apply option_eq. intros x.
      rewrite map_lookup_filter_Some, lookup_empty. simpl. split; [|done].
      intros (Hh & Hox & Hkx).
      destruct (rt_owned _ _ _ T h x Hh Hox) as (q & m & Hq & Hm & Hto).
      destruct (rt_armed _ _ _ T q m Hq Hm) as (x' & Hx' & _ & Hkx').
      assert (x' = x) as -> by congruence.
      assert (LRU.cache o !! key = Some q) as Hk.
      { apply (rep_cache _ _ _ _ R). split; [done|]. exists m.
        split; [done | congruence]. }
      by rewrite (index_node_Some _ _ _ _ _ _ _ R Hk Hm) in Hi. }
    by rewrite map_to_list_empty.
Qed.


(** The node at the head of a well-formed cache is the one its index holds
    for the key of that node. *)
Lemma index_node_head w this o l p n :
  rep w this o (p :: l) → nodes w !! p = Some n →
  index_node w this (Node.key n) = Some n.
Proof.
  intros R Hn. eapply index_node_Some; [done | | done].
  apply (rep_cache _ _ _ _ R). split; [by left | eauto].
Qed.






(** Once [remove] has unlinked the entry of a key, the index has no node
    for the key and no timer is pending for it. *)
Lemma removed_gone w this o l n key w' o' l' :
  stepped this w o l w' o' l' → o' = removed_obj o n key →
  index_node w' this key = None ∧ pending_for w' this key = [].
Proof.
  intros St ->.
  pose proof (st_rep _ _ _ _ _ _ _ St) as R'.
  pose proof (st_timers _ _ _ _ _ _ _ St) as T'.
  assert (index_node w' this key = None) as Hi.
  { eapply index_node_None; [done|]. simpl. apply lookup_delete_eq. }
  split; [done|].
  pose proof (pending_spec _ _ _ _ key R' T') as H. by rewrite Hi in H.
Qed.



(** ** The scenario of the specification *)

(** C2 as stated fails: in the scenario the [Get] does not evaluate to the
    pair of 1 and [true], whatever the cache holds before and after. *)
Lemma scenario_get_is_not_a_pair :
  value_of scenario ≠
  Some (JPair (JNum 1) (JBool true),
        [("k1"%string, JNum 1); ("k2"%string, JNum 2)],
        [("k3"%string, JNum 3); ("k1"%string, JNum 1)]) ∧
  ∀ before after,
    value_of scenario ≠ Some (JPair (JNum 1) (JBool true), before, after).
Proof. split; [|intros before after]; vm_compute; intros H; discriminate H. Qed.

(** C2, as the code has it.  In the scenario the [Get] evaluates to
    [undefined]; after it the cache holds k1, then k2; the last [Put] evicts
    k2 and nothing else, and leaves exactly k3 -> 3 and k1 -> 1, in this
    order of recency. *)
Theorem scenario_result :
  value_of scenario =
  Some (JUndefined,
        [("k1"%string, JNum 1); ("k2"%string, JNum 2)],
        [("k3"%string, JNum 3); ("k1"%string, JNum 1)]).
Proof. vm_compute. reflexivity. Qed.


(** ** Caches that share a heap *)

Lemma frame_other this w o l w' o' l' r or lr :
  stepped this w o l w' o' l' → alloc_ok w → r ≠ this →
  rep w r or lr → rep_timers w r lr → lr ## l →
  rep w' r or lr ∧ rep_timers w' r lr ∧ lr ## l' ∧ same_view w w' r.
Proof.
  intros St A Hne R T Hdisj.
  pose proof (st_frame _ _ _ _ _ _ _ St) as F.
  assert (∀ q, q ∈ lr → nodes w' !! q = nodes w !! q) as Hsame.
  { intros q Hq. apply (fr_nodes _ _ _ _ F).
    - intros Hq'. by apply (Hdisj q).
    - by eapply rep_below. }
  assert (rep w' r or lr) as R'.
  { split; try apply R.
    - rewrite (fr_objs _ _ _ _ F) by done. apply R.
    - eapply dseg_ext; [|apply R]. done.
    - intros k p. rewrite (rep_cache _ _ _ _ R). split.
      + intros (Hp & n & Hn & Hk). split; [done|]. exists n.
        by rewrite Hsame.
      + intros (Hp & n & Hn & Hk). split; [done|]. exists n.
        by rewrite <- Hsame. }
  split_and!.
  - done.
  - split.
    + intros p n Hp Hn. rewrite Hsame in Hn by done.
      destruct (rt_armed _ _ _ T p n Hp Hn) as (tm & Htm & Hobj & Hkey).
      exists tm. split_and!; try done.
      apply (fr_timers _ _ _ _ F); [congruence | done].
    + intros h tm Hh Hobj.
      apply (fr_timers _ _ _ _ F) in Hh; [|congruence].
      destruct (rt_owned _ _ _ T h tm Hh Hobj) as (p & n & Hp & Hn & Hto).
      exists p, n. split_and!; try done. by rewrite Hsame.
  - intros q Hq Hq'. destruct (st_list _ _ _ _ _ _ _ St q Hq') as [Hl | Hnew].
    + by apply (Hdisj q).
    + pose proof (rep_below _ _ _ _ _ R A Hq). lia.
  - split_and!.
    + by apply (fr_objs _ _ _ _ F).
    + rewrite (rep_lru_list _ _ _ _ R' (st_alloc _ _ _ _ _ _ _ St)).
      by rewrite (rep_lru_list _ _ _ _ R A).
    + intros p Hp. apply Hsame. by rewrite (rep_lru_list _ _ _ _ R A) in Hp.
    + intros h tm Hobj. apply (fr_timers _ _ _ _ F). congruence.
Qed.

Lemma same_view_refl w r : same_view w w r.
Proof. by split_and!. Qed.

Lemma same_view_trans w1 w2 w3 r :
  same_view w1 w2 r → same_view w2 w3 r → same_view w1 w3 r.
Proof.
  intros (Ho & Hl & Hn & Ht) (Ho' & Hl' & Hn' & Ht'). split_and!.
  - congruence.
  - congruence.
  - intros p Hp. rewrite Hn' by by rewrite Hl. by apply Hn.
  - intros h tm Hobj. rewrite Ht' by done. by apply Ht.
Qed.

Lemma same_view_index_val w w' r o l key :
  rep w r o l → alloc_ok w → same_view w w' r →
  index_val w' r key = index_val w r key.
Proof.
  intros R A (Ho & Hl & Hn & _). unfold index_val, index_node.
  rewrite Ho, (rep_obj _ _ _ _ R). simpl.
  destruct (LRU.cache o !! key) as [p|] eqn:Hk; [|done]. simpl.
  rewrite Hn; [done|]. rewrite (rep_lru_list _ _ _ _ R A).
  apply (rep_cache _ _ _ _ R) in Hk. tauto.
Qed.

Lemma same_view_writable w w' r :
  alloc_ok w → alloc_ok w' → writable w r → same_view w w' r → writable w' r.
Proof.
  intros A A' (o & l & R & T & Hlim) (Ho & Hl & Hn & Ht).
  rewrite (rep_lru_list _ _ _ _ R A) in Hn.
  exists o, l. split_and!; [| |done].
  - split; try apply R.
    + rewrite Ho. apply R.
    + eapply dseg_ext; [|apply R]. done.
    + intros k p. rewrite (rep_cache _ _ _ _ R). split.
      * intros (Hp & n & Hn' & Hk). split; [done|]. exists n. by rewrite Hn.
      * intros (Hp & n & Hn' & Hk). split; [done|]. exists n.
        by rewrite <- Hn.
  - split.
    + intros p n Hp Hn'. rewrite Hn in Hn' by done.
      destruct (rt_armed _ _ _ T p n Hp Hn') as (tm & Htm & Hobj & Hkey).
      exists tm. split_and!; try done. by apply Ht.
    + intros h tm Hh Hobj. apply Ht in Hh; [|done].
      destruct (rt_owned _ _ _ T h tm Hh Hobj) as (p & n & Hp & Hn' & Hto).
      exists p, n. split_and!; try done. by rewrite Hn.
Qed.

(** [write] on one of several well-formed caches that share no node. *)
Lemma write_sys w rs this key val tl :
  sys_ok w rs → this ∈ rs →
  ∃ w',
    LRU_write this key val tl w = Ok (tt, w') ∧ sys_ok w' rs ∧
    index_val w' this key = Some val ∧
    (∀ r, r ≠ this → objs w' !! r = objs w !! r) ∧
    (∀ r, r ∈ rs → r ≠ this → same_view w w' r) ∧
    (∃ o o', objs w !! this = Some o ∧ objs w' !! this = Some o' ∧
             LRU.ext o' = LRU.ext o) ∧
    next_loc w' = S (next_loc w) ∧ next_tid w' = S (next_tid w).
Proof.
  intros (A & Hnd & Hall & Hsep) Hin.
  destruct (Hall this Hin) as (o & l & R & T & Hlim).
  destruct (write_spec _ _ _ _ key val tl R T A Hlim)
    as (w' & o' & la & lb & Hex & St & Hloc & Htid & Hnew & Htm & _).
  pose proof (st_rep _ _ _ _ _ _ _ St) as R'.
  pose proof (st_timers _ _ _ _ _ _ _ St) as T'.
  pose proof (st_alloc _ _ _ _ _ _ _ St) as A'.
  assert (∀ r, r ∈ rs → r ≠ this →
            ∃ or lr, rep w r or lr ∧ rep_timers w r lr ∧ LRU.limit or ≠ 0 ∧
                     rep w' r or lr ∧ rep_timers w' r lr ∧
                     lr ## (next_loc w :: lb) ∧ same_view w w' r) as Hothers.
  { intros r Hr Hne. destruct (Hall r Hr) as (or & lr & Rr & Tr & Hlr).
    assert (lr ## l) as Hd.
    { specialize (Hsep r this Hr Hin Hne).
      by rewrite (rep_lru_list _ _ _ _ Rr A), (rep_lru_list _ _ _ _ R A) in Hsep. }
    destruct (frame_other _ _ _ _ _ _ _ _ _ _ St A Hne Rr Tr Hd)
      as (Rr' & Tr' & Hd' & Hv).
    exists or, lr. by split_and!. }
  exists w'. split_and!; try done.
  - split_and!; try done.
    + intros r Hr. destruct (decide (r = this)) as [-> | Hne].
      * exists o', (next_loc w :: lb). split_and!; try done.
        by rewrite (st_limit _ _ _ _ _ _ _ St).
      * destruct (Hothers r Hr Hne) as (or & lr & _ & _ & Hlr & Rr' & Tr' & _).
        by exists or, lr.
    + assert (∀ r1 r2, r1 ∈ rs → r2 ∈ rs → r1 ≠ r2 → r2 ≠ this →
                lru_list w' r1 ## lru_list w' r2) as Hhalf.
      { intros r1 r2 H1 H2 Hne Hne2.
        destruct (Hothers r2 H2 Hne2)
          as (o2 & l2 & R2 & _ & _ & R2' & _ & Hd2 & _).
        rewrite (rep_lru_list _ _ _ _ R2' A').
        destruct (decide (r1 = this)) as [-> | Hne1].
        - rewrite (rep_lru_list _ _ _ _ R' A'). intros q H H'. by apply (Hd2 q).
        - destruct (Hothers r1 H1 Hne1)
            as (o1 & l1 & R1 & _ & _ & R1' & _ & _ & _).
          rewrite (rep_lru_list _ _ _ _ R1' A').
          specialize (Hsep r1 r2 H1 H2 Hne).
          by rewrite (rep_lru_list _ _ _ _ R1 A), (rep_lru_list _ _ _ _ R2 A)
            in Hsep. }
      intros r1 r2 H1 H2 Hne. destruct (decide (r2 = this)) as [-> | Hne2].
      * intros q H H'. by apply (Hhalf this r1 Hin H1 (not_eq_sym Hne) Hne q).
      * by apply Hhalf.
  - pose proof (index_node_head _ _ _ _ _ _ R' Hnew) as Hi. simpl in Hi.
    unfold index_val. by rewrite Hi.
  - intros r Hne. by apply (fr_objs _ _ _ _ (st_frame _ _ _ _ _ _ _ St)).
  - intros r Hr Hne. destruct (Hothers r Hr Hne) as (? & ? & H). tauto.
  - exists o, o'. split_and!; [apply R | apply R' | apply St].
Qed.

Lemma lrus_lookup_in lrus id r :
  NoDup lrus.*1 → (id, r) ∈ lrus → lrus_lookup lrus id = Some r.
Proof.
  unfold lrus_lookup. induction lrus as [|[id' r'] lrus IH]; intros Hnd Hin.
  - by apply elem_of_nil in Hin.
  - simpl in *. apply list.NoDup_cons in Hnd as [Hnotin Hnd].
    case_bool_decide as E.
    + simpl. apply elem_of_cons in Hin as [[= <- <-] | Hin]; [done|].
      subst id'. exfalso. apply Hnotin.
      apply list_elem_of_fmap. by exists (id, r).
    + apply elem_of_cons in Hin as [[= <- <-] | Hin]; [done|]. by apply IH.
Qed.


Lemma get_lrus_ok w hub g lrus :
  objs w !! hub = Some g → LRU.ext g = GlobalLRU lrus →
  get_lrus hub w = Ok (lrus, w).
Proof.
  intros Ho He. unfold get_lrus, bind, get_obj, ret. by rewrite Ho, He.
Qed.



(** ** The set-up of [geoLRUDemo] *)

(** Caches that have just been constructed, on a heap with no timer. *)
Lemma sys_ok_fresh w rs :
  alloc_ok w → NoDup rs → timers w = ∅ →
  (∀ r, r ∈ rs → ∃ o, objs w !! r = Some o ∧ LRU.head o = None ∧
                      LRU.tail o = None ∧ LRU.length o = 0 ∧
                      LRU.cache o = ∅ ∧ LRU.limit o ≠ 0) →
  sys_ok w rs.
Proof.
  intros A Hnd Ht Hall.
  assert (∀ r, r ∈ rs → ∃ o, rep w r o [] ∧ rep_timers w r [] ∧
                             LRU.limit o ≠ 0) as Hrep.
  { intros r Hr. destruct (Hall r Hr) as (o & Ho & Hh & Htl & Hl & Hc & Hlim).
    exists o. split_and!; [| |done].
    - split; try done.
      + apply NoDup_nil_2.
      + intros k p. rewrite Hc, lookup_empty. split; [done|].
        intros [Hin _]. by apply elem_of_nil in Hin.
    - split.
      + intros p n Hin. by apply elem_of_nil in Hin.
      + intros h tm Hh'. by rewrite Ht, lookup_empty in Hh'. }
  split_and!; try done.
  - intros r Hr. destruct (Hrep r Hr) as (o & R & T & Hlim). by exists o, [].
  - intros r1 r2 H1 _ _. destruct (Hrep r1 H1) as (o & R & _).
    rewrite (rep_lru_list _ _ _ _ R A). intros q Hq. by apply elem_of_nil in Hq.
Qed.

Lemma geo_setup_world : geo_setup empty_world = Ok ((0, 1, 2)%nat, geo_world).
Proof. vm_compute. reflexivity. Qed.

Lemma geo_world_ok : sys_ok geo_world [0; 1; 2]%nat.
Proof.
  apply sys_ok_fresh.
  - split; simpl.
    + intros p [x Hx]. by rewrite lookup_empty in Hx.
    + intros p [x Hx]. by rewrite lookup_empty in Hx.
    + intros r [x Hr].
      repeat (apply lookup_insert_Some in Hr as [[<- _] | [_ Hr]]; [lia|]).
      by rewrite lookup_empty in Hr.
    + intros h tm Hx. by rewrite lookup_empty in Hx.
  - compute_done.
  - done.
  - intros r Hr.
    repeat (apply elem_of_cons in Hr as [-> | Hr];
            [eexists; split; [reflexivity | by split_and!]|]).
    by apply elem_of_nil in Hr.
Qed.



(** ** Joining a hub, constructing, registering *)



(** C6 fails on the code.  Joining a hub that holds two entries throws a
    [ReferenceError]; joining a hub that holds one entry gives a region
    whose index holds the very node of the hub, which is not the node of
    its own recency list, and removing the entry from the region clears the
    timer of the hub, whose entry then never expires. *)
Theorem bootstrap_throws_or_shares :
  join_hub [("a"%string, JNum 1); ("b"%string, JNum 2)] empty_world
    = Throw ReferenceError ∧
  value_of join_then_remove =
    Some (Some 0%nat, Some 0%nat, [1%nat], [0%nat], [], Some (JNum 1)).
Proof. split; vm_compute; reflexivity. Qed.

(** C8 as stated fails: a region constructed with capacity 0 and TTL -5
    is constructed, with these values. *)
Lemma nonpositive_configuration_accepted :
  value_of construct_nonpositive = Some (Some (0, -5)).
Proof. vm_compute. reflexivity. Qed.

Lemma new_obj_lookup w o :
  objs (with_objs w (<[next_oid w := o]> (objs w)) (S (next_oid w)))
    !! next_oid w = Some o.
Proof. simpl. apply lookup_insert_eq. Qed.

(** C8, as the code has it.  No constructor looks at its arguments: for
    every capacity and TTL, given or defaulted, [new LRU], [new USALRU], and
    [new CanadaLRU] against an empty hub return an empty cache with these
    values as [limit] and [timeLimit]. *)
Theorem constructors_do_not_validate (limit timeLimit : option Z)
    (g : oid) (w : world) :
  (∃ w' o, LRU_new limit timeLimit w = Ok (next_oid w, w') ∧
           objs w' !! next_oid w = Some o ∧ pristine o limit timeLimit) ∧
  (∃ w' o, USALRU_new g limit timeLimit w = Ok (next_oid w, w') ∧
           objs w' !! next_oid w = Some o ∧ pristine o limit timeLimit) ∧
  (∀ go, objs w !! g = Some go → LRU.length go ≤ 0 →
     ∃ w' o, CanadaLRU_new g limit timeLimit w = Ok (next_oid w, w') ∧
             objs w' !! next_oid w = Some o ∧ pristine o limit timeLimit).
Proof.
  split_and!.
  - eexists _, _. split; [reflexivity|]. split; [apply new_obj_lookup|].
    by split_and!.
  - eexists _, _. split; [reflexivity|]. split; [apply new_obj_lookup|].
    by split_and!.
  - intros go Hgo Hlen. eexists _, _. split_and!.
    + unfold CanadaLRU_new. rewrite (bind_ok _ _ w _ _ eq_refl). cbv beta.
      unfold bind at 1. unfold get_obj at 1. simpl.
      rewrite lookup_insert. case_decide as E.
      * simpl. reflexivity.
      * rewrite Hgo. destruct (Z.ltb_spec 0 (LRU.length go)); [lia|].
        simpl. reflexivity.
    + apply new_obj_lookup.
    + by split_and!.
Qed.

(** C9 as stated fails: the second [addLRU] under the id "usa" raises
    nothing and replaces the cache registered first. *)
Lemma duplicate_registration_replaces :
  value_of register_twice =
  Some (Some [("usa"%string, 1%nat)], Some [("usa"%string, 2%nat)]).
Proof. vm_compute. reflexivity. Qed.

Lemma lrus_assign_lookup_eq lrus k r :
  lrus_lookup (lrus_assign lrus k r) k = Some r.
Proof.
  unfold lrus_lookup. induction lrus as [|[k' r'] lrus IH]; simpl.
  - by rewrite bool_decide_eq_true_2.
  - case_bool_decide as E; simpl.
    + by rewrite bool_decide_eq_true_2.
    + by rewrite bool_decide_eq_false_2.
Qed.

Lemma lrus_assign_lookup_ne lrus k r k' :
  k' ≠ k → lrus_lookup (lrus_assign lrus k r) k' = lrus_lookup lrus k'.
Proof.
  intros Hne. unfold lrus_lookup.
  induction lrus as [|[k0 r0] lrus IH]; simpl.
  - by rewrite bool_decide_eq_false_2.
  - case_bool_decide as E; simpl.
    + subst k0. by rewrite !bool_decide_eq_false_2 by done.
    + case_bool_decide; [done | apply IH].
Qed.

Lemma lrus_assign_keys lrus k r :
  is_Some (lrus_lookup lrus k) → (lrus_assign lrus k r).*1 = lrus.*1.
Proof.
  unfold lrus_lookup. induction lrus as [|[k0 r0] lrus IH]; simpl.
  - intros [x H]. done.
  - case_bool_decide as E; simpl.
    + intros _. by subst.
    + intros H. f_equal. by apply IH.
Qed.

Lemma lrus_delete_absent lrus k :
  lrus_lookup lrus k = None → lrus_delete lrus k = lrus.
Proof.
  unfold lrus_lookup, lrus_delete.
  induction lrus as [|[k0 r0] lrus IH]; simpl; [done|].
  case_bool_decide as E; simpl; [done|]. intros H. f_equal. by apply IH.
Qed.

(** C9, as the code has it.  [addLRU] never fails on a hub: under an id
    that is registered it replaces the cache registered there, in place,
    and under a new id it adds the cache; the other ids keep their caches.
    [removeLRU] of an id that is not registered changes nothing. *)
Theorem addLRU_replaces_removeLRU_skips (w : world) (hub : oid)
    (lrus : list (string * oid)) (id : string) (r : oid) (unknown : string) :
  registry w hub = Some lrus →
  lrus_lookup lrus unknown = None →
  (∃ w' lrus',
     GlobalLRU_addLRU hub id r w = Ok (tt, w') ∧
     registry w' hub = Some lrus' ∧
     lrus_lookup lrus' id = Some r ∧
     (∀ id', id' ≠ id → lrus_lookup lrus' id' = lrus_lookup lrus id') ∧
     (is_Some (lrus_lookup lrus id) → lrus'.*1 = lrus.*1)) ∧
  GlobalLRU_removeLRU hub unknown w = Ok (tt, w).
Proof.
  intros Hreg Hnone. unfold registry in Hreg.
  destruct (objs w !! hub) as [g|] eqn:Hg; [|done]. simpl in Hreg.
  destruct (LRU.ext g) as [|lrus0|] eqn:Hext; try done. injection Hreg as ->.
  split.
  - eexists _, (lrus_assign lrus id r). split_and!.
    + unfold GlobalLRU_addLRU.
      rewrite (bind_ok _ _ _ _ _ (get_lrus_ok _ _ _ _ Hg Hext)).
      unfold upd_obj. rewrite Hg. reflexivity.
    + unfold registry. simpl. by rewrite lookup_insert_eq.
    + apply lrus_assign_lookup_eq.
    + intros id' Hne. by apply lrus_assign_lookup_ne.
    + apply lrus_assign_keys.
  - unfold GlobalLRU_removeLRU.
    rewrite (bind_ok _ _ _ _ _ (get_lrus_ok _ _ _ _ Hg Hext)).
    unfold upd_obj. rewrite Hg. f_equal. f_equal.
    rewrite (lrus_delete_absent _ _ Hnone). apply world_eq; simpl; try done.
    apply insert_id. rewrite Hg. f_equal. destruct g. simpl in *. by subst.
Qed.

Lemma addLRU_replaces_removeLRU_skips_witness :
  registry usa_only 0%nat = Some [("usa"%string, 1%nat)] ∧
  lrus_lookup [("usa"%string, 1%nat)] "canada" = None ∧
  (∃ w' lrus',
     GlobalLRU_addLRU 0%nat "usa" 2%nat usa_only = Ok (tt, w') ∧
     registry w' 0%nat = Some lrus' ∧
     lrus_lookup lrus' "usa" = Some 2%nat ∧
     (∀ id', id' ≠ "usa"%string →
             lrus_lookup lrus' id' = lrus_lookup [("usa"%string, 1%nat)] id') ∧
     (is_Some (lrus_lookup [("usa"%string, 1%nat)] "usa") →
      lrus'.*1 = [("usa"%string, 1%nat)].*1)) ∧
  GlobalLRU_removeLRU 0%nat "canada" usa_only = Ok (tt, usa_only).
Proof.
  split; [reflexivity|]. split; [reflexivity|].
  apply (addLRU_replaces_removeLRU_skips usa_only 0%nat
           [("usa"%string, 1%nat)] "usa" 2%nat "canada"); reflexivity.
Defined.

(** * Further properties of the code

    ** One cache, seen as its list of entries *)

(** ** Lists of entries with one entry per key *)




(** ** The entries of a well-formed cache *)




































(** ** A cache whose limit is zero *)

Lemma inv0_write w this key val ttl :
  inv0 w this → LRU_write this key val ttl w = Throw TypeError.
Proof.
  intros (o & Ho & Hc & Hl & Hlim & Ht & _).
  unfold LRU_write, bind, get_obj. rewrite Ho, Hc, lookup_empty.
  unfold ret, LRU_isAtLimit, bind, get_obj. rewrite Ho. simpl.
  rewrite Hl, Hlim. simpl. by rewrite Ho, Ht.
Qed.

Lemma inv0_run_ops this cs :
  ∀ w, inv0 w this →
       run_ops this cs w = Throw TypeError ∨
       ∃ w', run_ops this cs w = Ok (tt, w') ∧ inv0 w' this.
Proof.
  induction cs as [|c cs IH]; intros w I.
  - right. by exists w.
  - assert (run_op this c w = Throw TypeError ∨
            ∃ w1, run_op this c w = Ok (tt, w1) ∧ inv0 w1 this) as [H | (w1 & H & I1)].
    { pose proof I as (o & Ho & Hc & Hl & Hlim & Ht & He & Htm).
      destruct c as [key val ttl | key | key | h | dt]; simpl.
      - left. by apply inv0_write.
      - right. exists w. split; [|done].
        rewrite (bind_ok _ _ w JUndefined w); [done|].
        apply (read_absent _ _ o); [done|]. by rewrite Hc, lookup_empty.
      - right. exists w. split; [|done].
        apply (remove_absent _ _ o); [done|]. by rewrite Hc, lookup_empty.
      - right. exists w. split; [|done]. unfold fire.
        by rewrite Htm, lookup_empty.
      - right. eexists. split; [reflexivity|]. by exists o. }
    + left. simpl. unfold bind. by rewrite H.
    + simpl. rewrite (bind_ok _ _ _ _ _ H). by apply IH.
Qed.

(** X8.  A cache constructed with a limit of zero can never be written:
    whatever calls come first, a [write] throws a [TypeError], because
    [isAtLimit] holds of the empty cache and [this.tail] is [null]. *)
Theorem limit_zero_never_writes (tl : option Z) (cs : list op)
    (key : string) (val : jsval) (ttl : option Z) :
  (let* c := boot (Some 0) tl cs in LRU_write c key val ttl) empty_world
    = Throw TypeError.
Proof.
  assert (inv0 (with_objs empty_world
                  (<[0%nat := LRU_fields (Some 0) tl BaseLRU]> ∅) 1%nat) 0%nat) as I.
  { eexists. split; [apply lookup_insert_eq|]. by split_and!. }
  set (w0 := with_objs empty_world
               (<[0%nat := LRU_fields (Some 0) tl BaseLRU]> ∅) 1%nat) in *.
  assert (boot (Some 0) tl cs empty_world = Throw TypeError ∨
          ∃ w', boot (Some 0) tl cs empty_world = Ok (0%nat, w') ∧ inv0 w' 0%nat)
    as [H | (w' & H & I')].
  { unfold boot. rewrite (bind_ok _ _ empty_world 0%nat w0 eq_refl). cbv beta.
    destruct (inv0_run_ops 0%nat cs _ I) as [H | (w' & H & I')].
    - left. unfold bind. by rewrite H.
    - right. exists w'. by rewrite (bind_ok _ _ _ _ _ H). }
  - unfold bind. by rewrite H.
  - rewrite (bind_ok _ _ _ _ _ H). by apply inv0_write.
Qed.

(** ** The entry used last is the last to go *)









(** ** Calls on one cache of several *)

Lemma sys_ok_rep w rs c :
  sys_ok w rs → c ∈ rs →
  ∃ o l, rep w c o l ∧ rep_timers w c l ∧ LRU.limit o ≠ 0 ∧ alloc_ok w.
Proof.
  intros (A & _ & Hall & _) Hc. destruct (Hall c Hc) as (o & l & R & T & Hl).
  by exists o, l.
Qed.

Lemma stepped_sys w rs this o l w' o' l' :
  sys_ok w rs → this ∈ rs → rep w this o l →
  stepped this w o l w' o' l' →
  touch rs [this] w w'.
Proof.
  intros (A & Hnd & Hall & Hsep) Hin R St.
  pose proof (st_rep _ _ _ _ _ _ _ St) as R'.
  pose proof (st_timers _ _ _ _ _ _ _ St) as T'.
  pose proof (st_alloc _ _ _ _ _ _ _ St) as A'.
  assert (LRU.limit o ≠ 0) as Hlim.
  { destruct (Hall this Hin) as (o0 & l0 & R0 & _ & Hl0).
    pose proof (rep_obj _ _ _ _ R) as E. rewrite (rep_obj _ _ _ _ R0) in E.
    by injection E as <-. }
  assert (∀ r, r ∈ rs → r ≠ this →
            ∃ or lr, rep w r or lr ∧ rep_timers w r lr ∧ LRU.limit or ≠ 0 ∧
                     rep w' r or lr ∧ rep_timers w' r lr ∧
                     lr ## l' ∧ same_view w w' r) as Hothers.
  { intros r Hr Hne. destruct (Hall r Hr) as (or & lr & Rr & Tr & Hlr).
    assert (lr ## l) as Hd.
    { specialize (Hsep r this Hr Hin Hne).
      by rewrite (rep_lru_list _ _ _ _ Rr A), (rep_lru_list _ _ _ _ R A) in Hsep. }
    destruct (frame_other _ _ _ _ _ _ _ _ _ _ St A Hne Rr Tr Hd)
      as (Rr' & Tr' & Hd' & Hv).
    exists or, lr. by split_and!. }
  split.
  - split_and!; try done.
    + intros r Hr. destruct (decide (r = this)) as [-> | Hne].
      * exists o', l'. split_and!; try done.
        by rewrite (st_limit _ _ _ _ _ _ _ St).
      * destruct (Hothers r Hr Hne) as (or & lr & _ & _ & Hlr & Rr' & Tr' & _).
        by exists or, lr.
    + assert (∀ r1 r2, r1 ∈ rs → r2 ∈ rs → r1 ≠ r2 → r2 ≠ this →
                lru_list w' r1 ## lru_list w' r2) as Hhalf.
      { intros r1 r2 H1 H2 Hne Hne2.
        destruct (Hothers r2 H2 Hne2)
          as (o2 & l2 & R2 & _ & _ & R2' & _ & Hd2 & _).
        rewrite (rep_lru_list _ _ _ _ R2' A').
        destruct (decide (r1 = this)) as [-> | Hne1].
        - rewrite (rep_lru_list _ _ _ _ R' A'). intros q H H'. by apply (Hd2 q).
        - destruct (Hothers r1 H1 Hne1)
            as (o1 & l1 & R1 & _ & _ & R1' & _ & _ & _).
          rewrite (rep_lru_list _ _ _ _ R1' A').
          specialize (Hsep r1 r2 H1 H2 Hne).
          by rewrite (rep_lru_list _ _ _ _ R1 A), (rep_lru_list _ _ _ _ R2 A)
            in Hsep. }
      intros r1 r2 H1 H2 Hne. destruct (decide (r2 = this)) as [-> | Hne2].
      * intros q H H'. by apply (Hhalf this r1 Hin H1 (not_eq_sym Hne) Hne q).
      * by apply Hhalf.
  - intros c Hc Hn. destruct (Hothers c Hc) as (? & ? & H).
    + intros ->. apply Hn. by left.
    + tauto.
  - intros c Hn. apply (fr_objs _ _ _ _ (st_frame _ _ _ _ _ _ _ St)).
    intros ->. apply Hn. by left.
  - intros c oc Hc. destruct (decide (c = this)) as [-> | Hne].
    + exists o'. split; [apply R'|].
      pose proof (rep_obj _ _ _ _ R) as Ho.
      assert (oc = o) as -> by congruence. apply St.
    + exists oc. split; [|done].
      by rewrite (fr_objs _ _ _ _ (st_frame _ _ _ _ _ _ _ St)).
Qed.

Lemma touch_refl w rs : sys_ok w rs → touch rs [] w w.
Proof.
  intros H. split; try done.
  intros c o Hc. by exists o.
Qed.

Lemma touch_trans rs T1 T2 w w1 w2 :
  touch rs T1 w w1 → touch rs T2 w1 w2 → touch rs (T1 ++ T2) w w2.
Proof.
  intros H1 H2. split.
  - apply H2.
  - intros c Hc Hn. apply not_elem_of_app in Hn as [Hn1 Hn2].
    apply same_view_trans with w1;
      [by apply (tc_same _ _ _ _ H1) | by apply (tc_same _ _ _ _ H2)].
  - intros c Hn. apply not_elem_of_app in Hn as [Hn1 Hn2].
    rewrite (tc_objs _ _ _ _ H2) by done. by apply (tc_objs _ _ _ _ H1).
  - intros c o Hc. destruct (tc_ext _ _ _ _ H1 c o Hc) as (o1 & Ho1 & E1).
    destruct (tc_ext _ _ _ _ H2 c o1 Ho1) as (o2 & Ho2 & E2).
    exists o2. split; [done | congruence].
Qed.


Lemma touch_val rs T w w' c k :
  sys_ok w rs → touch rs T w w' → c ∈ rs → c ∉ T →
  index_val w' c k = index_val w c k.
Proof.
  intros Hsys H Hc Hn. destruct (sys_ok_rep _ _ _ Hsys Hc) as (o & l & R & _ & _ & A).
  apply (same_view_index_val _ _ _ o l); try done.
  by apply (tc_same _ _ _ _ H).
Qed.

Lemma wrote_nil w rs key val : sys_ok w rs → wrote rs key val [] w w.
Proof.
  intros H. split; [by apply touch_refl | | simpl; lia | simpl; lia].
  intros c Hc. by apply elem_of_nil in Hc.
Qed.

Lemma wrote_trans rs key val T1 T2 w w1 w2 :
  (∀ c, c ∈ T1 → c ∈ rs) →
  wrote rs key val T1 w w1 → wrote rs key val T2 w1 w2 →
  wrote rs key val (T1 ++ T2) w w2.
Proof.
  intros Hsub H1 H2. split.
  - eapply touch_trans; [apply (wr_touch _ _ _ _ _ _ H1) | apply (wr_touch _ _ _ _ _ _ H2)].
  - intros c Hc. destruct (decide (c ∈ T2)) as [Hin | Hn].
    + by apply (wr_holds _ _ _ _ _ _ H2).
    + apply elem_of_app in Hc as [Hc | Hc]; [|done].
      rewrite (touch_val rs T2 w1 w2 c key).
      * by apply (wr_holds _ _ _ _ _ _ H1).
      * apply (tc_sys _ _ _ _ (wr_touch _ _ _ _ _ _ H1)).
      * apply (wr_touch _ _ _ _ _ _ H2).
      * by apply Hsub.
      * done.
  - rewrite (wr_loc _ _ _ _ _ _ H2), (wr_loc _ _ _ _ _ _ H1), length_app. lia.
  - rewrite (wr_tid _ _ _ _ _ _ H2), (wr_tid _ _ _ _ _ _ H1), length_app. lia.
Qed.

Lemma geo_touch w hub lrus rs T w' :
  geo w hub lrus rs → touch rs T w w' → geo w' hub lrus rs.
Proof.
  intros (Hreg & Hnd & Hsys & Hhub & Hregions) H. split_and!; try done.
  - unfold registry in *. destruct (objs w !! hub) as [g|] eqn:Hg; [|done].
    destruct (tc_ext _ _ _ _ H hub g Hg) as (g' & Hg' & E).
    rewrite Hg'. simpl in *. by rewrite E.
  - apply (tc_sys _ _ _ _ H).
  - intros id r Hin. destruct (Hregions id r Hin) as (Hr & o & Ho & E).
    split; [done|]. destruct (tc_ext _ _ _ _ H r o Ho) as (o' & Ho' & E').
    exists o'. split; [done | congruence].
Qed.

Lemma write_wrote w rs c key val tl :
  sys_ok w rs → c ∈ rs →
  ∃ w', LRU_write c key val tl w = Ok (tt, w') ∧ wrote rs key val [c] w w'.
Proof.
  intros Hsys Hc.
  destruct (write_sys _ _ c key val tl Hsys Hc)
    as (w' & Hex & Hsys' & Hval & Hobjs & Hview & (o & o' & Ho & Ho' & He)
        & Hl & Ht).
  exists w'. split; [done|]. split.
  - split.
    + done.
    + intros r Hr Hn. apply Hview; [done|]. intros ->. apply Hn. by left.
    + intros r Hn. apply Hobjs. intros ->. apply Hn. by left.
    + intros r or Hor. destruct (decide (r = c)) as [-> | Hne].
      * exists o'. split; [done|]. congruence.
      * exists or. by rewrite Hobjs.
  - intros r Hr. apply list_elem_of_singleton in Hr as ->. done.
  - simpl. lia.
  - simpl. lia.
Qed.


Lemma fire_touch w rs h tm :
  sys_ok w rs → timers w !! h = Some tm → Timer.obj tm ∈ rs →
  ∃ w', fire h w = Ok (tt, w') ∧ touch rs [Timer.obj tm] w w' ∧
        index_val w' (Timer.obj tm) (Timer.key tm) = None ∧
        is_Some (index_val w (Timer.obj tm) (Timer.key tm)).
Proof.
  intros Hsys Hh Hc.
  destruct (sys_ok_rep _ _ _ Hsys Hc) as (o & l & R & T & Hlim & A).
  destruct (fire_spec _ _ _ _ _ _ R T A Hh eq_refl)
    as (p & n & l1 & l2 & -> & Hn & Hto & Hkey & Hk & Hex & St).
  eexists. split; [exact Hex|]. split_and!.
  - by eapply stepped_sys.
  - destruct (removed_gone _ _ _ _ n (Timer.key tm) _ _ _ St eq_refl) as [Hi _].
    unfold index_val. by rewrite Hi.
  - unfold index_val. by rewrite (index_node_Some _ _ _ _ _ _ _ R Hk Hn).
Qed.

(** ** The hub and its regions *)

Lemma get_obj_ok w c o : objs w !! c = Some o → get_obj c w = Ok (o, w).
Proof. intros H. unfold get_obj. by rewrite H. Qed.

Lemma registry_inv w hub lrus :
  registry w hub = Some lrus →
  ∃ g, objs w !! hub = Some g ∧ LRU.ext g = GlobalLRU lrus.
Proof.
  unfold registry. destruct (objs w !! hub) as [g|]; [|done]. simpl.
  destruct (LRU.ext g) eqn:E; try done. intros [= ->]. by exists g.
Qed.


Lemma notified_cons_True id r ps lk :
  Some id ≠ lk → notified ((id, r) :: ps) lk = r :: notified ps lk.
Proof. intros H. unfold notified. by rewrite filter_cons_True. Qed.

Lemma notified_cons_False id r ps lk :
  ¬ Some id ≠ lk → notified ((id, r) :: ps) lk = notified ps lk.
Proof. intros H. unfold notified. by rewrite filter_cons_False. Qed.





(** The loop of [GlobalLRU.write]. *)
Lemma fanout_wrote hub lrus rs key val tl lk ps :
  ∀ w, geo w hub lrus rs → (∀ e, e ∈ ps → e ∈ lrus) →
       ∃ w', for_lruKeys hub ps.*1 lk (λ r, updateWrite r key val tl) w
               = Ok (tt, w') ∧
             wrote rs key val (notified ps lk) w w'.
Proof.
  induction ps as [|[id r] ps IH]; intros w G Hps.
  - exists w. split; [done|]. apply wrote_nil. apply G.
  - assert (∀ e, e ∈ ps → e ∈ lrus) as Hps'.
    { intros e He. apply Hps. by right. }
    simpl. case_bool_decide as Hd.
    + pose proof G as (Hreg & Hnd & Hsys & Hhub & Hregions).
      destruct (registry_inv _ _ _ Hreg) as (g & Hg & Hgext).
      destruct (Hregions id r ltac:(apply Hps; by left)) as (Hr & o & Ho & Hoext).
      destruct (write_wrote w rs r key val tl Hsys Hr) as (w1 & Hex1 & W1).
      pose proof (geo_touch _ _ _ _ _ _ G (wr_touch _ _ _ _ _ _ W1)) as G1.
      destruct (IH w1 G1 Hps') as (w' & Hex & W).
      exists w'. split.
      * rewrite (bind_ok _ _ w tt w1); [done|].
        rewrite (bind_ok _ _ _ _ _ (get_lrus_ok _ _ _ _ Hg Hgext)).
        rewrite (lrus_lookup_in lrus id r Hnd ltac:(apply Hps; by left)).
        unfold updateWrite. rewrite (bind_ok _ _ _ _ _ (get_obj_ok _ _ _ Ho)).
        rewrite Hoext. exact Hex1.
      * rewrite notified_cons_True by done.
        apply (wrote_trans rs key val [r] (notified ps lk) w w1 w'); try done.
        intros c Hc. by apply list_elem_of_singleton in Hc as ->.
    + destruct (IH w G Hps') as (w' & Hex & W).
      exists w'. split.
      * by rewrite (bind_ok _ _ w tt w eq_refl).
      * rewrite notified_cons_False; [done|]. intros H. by apply H.
Qed.

(** [GlobalLRU.write] *)
Lemma hub_write_wrote w hub lrus rs key val tl lk :
  geo w hub lrus rs →
  ∃ w', GlobalLRU_write hub key val tl lk w = Ok (tt, w') ∧
        wrote rs key val (hub :: notified lrus lk) w w'.
Proof.
  intros G. pose proof G as (Hreg & Hnd & Hsys & Hhub & Hregions).
  destruct (write_wrote w rs hub key val tl Hsys Hhub) as (w1 & Hex1 & W1).
  pose proof (geo_touch _ _ _ _ _ _ G (wr_touch _ _ _ _ _ _ W1)) as G1.
  destruct (fanout_wrote hub lrus rs key val tl lk lrus w1 G1 ltac:(done))
    as (w' & Hex & W).
  destruct G1 as (Hreg1 & _).
  destruct (registry_inv _ _ _ Hreg1) as (g & Hg & Hgext).
  exists w'. split.
  - unfold GlobalLRU_write. rewrite (bind_ok _ _ _ _ _ Hex1).
    by rewrite (bind_ok _ _ _ _ _ (get_lrus_ok _ _ _ _ Hg Hgext)).
  - apply (wrote_trans rs key val [hub] (notified lrus lk) w w1 w'); try done.
    intros c Hc. by apply list_elem_of_singleton in Hc as ->.
Qed.

(** [write] of a region constructed for the hub with the id [A]. *)
Lemma region_write_wrote w hub lrus rs a o A key val tl :
  geo w hub lrus rs → a ∈ rs →
  objs w !! a = Some o → LRU.ext o = RegionLRU A hub →
  ∃ w', RegionLRU_write a key val tl w = Ok (tt, w') ∧
        wrote rs key val (a :: hub :: notified lrus (Some A)) w w'.
Proof.
  intros G Ha Ho Hoext. pose proof G as (Hreg & Hnd & Hsys & Hhub & Hregions).
  destruct (write_wrote w rs a key val tl Hsys Ha) as (w1 & Hex1 & W1).
  pose proof (geo_touch _ _ _ _ _ _ G (wr_touch _ _ _ _ _ _ W1)) as G1.
  destruct (tc_ext _ _ _ _ (wr_touch _ _ _ _ _ _ W1) a o Ho) as (o1 & Ho1 & E1).
  destruct (hub_write_wrote w1 hub lrus rs key val tl (Some A) G1)
    as (w' & Hex & W).
  exists w'. split.
  - unfold RegionLRU_write. rewrite (bind_ok _ _ _ _ _ Hex1).
    rewrite (bind_ok _ _ _ _ _ (get_obj_ok _ _ _ Ho1)).
    by rewrite E1, Hoext.
  - apply (wrote_trans rs key val [a] (hub :: notified lrus (Some A)) w w1 w');
      try done.
    intros c Hc. by apply list_elem_of_singleton in Hc as ->.
Qed.


(** X11.  Expiry is local.  Among well-formed caches that share no node,
    the timer of an entry that fires removes the entry from the cache that
    armed it, and from no other: every other cache is what it was, with
    the same entries and the same pending timers, whether it is the hub or
    a region that holds the same key. *)
Theorem expiry_is_local (w : world) (rs : list oid) (h : tid) (tm : Timer.t) :
  sys_ok w rs → timers w !! h = Some tm → Timer.obj tm ∈ rs →
  ∃ w',
    fire h w = Ok (tt, w') ∧ sys_ok w' rs ∧
    is_Some (index_val w (Timer.obj tm) (Timer.key tm)) ∧
    index_val w' (Timer.obj tm) (Timer.key tm) = None ∧
    ∀ c, c ∈ rs → c ≠ Timer.obj tm →
         same_view w w' c ∧ ∀ k, index_val w' c k = index_val w c k.
Proof.
  intros Hsys Hh Hc.
  destruct (fire_touch w rs h tm Hsys Hh Hc) as (w' & Hex & Tc & Hnone & Hsome).
  exists w'. split_and!; try done.
  - apply (tc_sys _ _ _ _ Tc).
  - intros c Hcin Hne.
    assert (c ∉ [Timer.obj tm]) as Hn.
    { intros H. by apply list_elem_of_singleton in H. }
    split.
    + by apply (tc_same _ _ _ _ Tc).
    + intros k. by apply (touch_val rs [Timer.obj tm] w w' c k).
Qed.


(** ** Reads in a deployment *)








(** ** The deployment of [geoLRUDemo] *)

Lemma geo_world_geo :
  geo geo_world 0%nat [("canada"%string, 1%nat); ("usa"%string, 2%nat)]
    [0; 1; 2]%nat.
Proof.
  split_and!.
  - reflexivity.
  - compute_done.
  - apply geo_world_ok.
  - compute_done.
  - intros id r Hin. apply elem_of_cons in Hin as [E | Hin].
    + injection E as -> ->. split; [compute_done|]. eexists. split; reflexivity.
    + apply elem_of_cons in Hin as [E | Hin]; [|by apply elem_of_nil in Hin].
      injection E as -> ->. split; [compute_done|]. eexists. split; reflexivity.
Qed.

(** The heap after [canadaLRU.write('a', 111)] of [geoLRUDemo]. *)
Lemma geo_after_write :
  ∃ w, RegionLRU_write 1%nat "a" (JNum 111) None geo_world = Ok (tt, w) ∧
       geo w 0%nat [("canada"%string, 1%nat); ("usa"%string, 2%nat)]
         [0; 1; 2]%nat ∧
       timers w !! 2%nat = Some (Timer.mk 2%nat "a" 60000 0) ∧
       index_val w 2%nat "a" = Some (JNum 111).
Proof.
  destruct (region_write_wrote geo_world 0%nat
              [("canada"%string, 1%nat); ("usa"%string, 2%nat)] [0; 1; 2]%nat
              1%nat (LRU_fields None None (RegionLRU "canada" 0%nat)) "canada"
              "a" (JNum 111) None geo_world_geo)
    as (w & Hex & W); [compute_done | reflexivity | reflexivity |].
  assert (∀ w0, RegionLRU_write 1%nat "a" (JNum 111) None geo_world = Ok (tt, w0) →
                timers w0 !! 2%nat = Some (Timer.mk 2%nat "a" 60000 0) ∧
                index_val w0 2%nat "a" = Some (JNum 111)) as Hrun.
  { intros w0 E. vm_compute in E. injection E as <-. split; reflexivity. }
  destruct (Hrun w Hex) as [Ht Hv].
  exists w. split; [exact Hex|]. split; [|split; [exact Ht | exact Hv]].
  eapply geo_touch; [apply geo_world_geo | apply (wr_touch _ _ _ _ _ _ W)].
Qed.

Lemma geo_sys w hub lrus rs : geo w hub lrus rs → sys_ok w rs.
Proof. by intros (_ & _ & H & _). Qed.


Lemma expiry_is_local_witness :
  ∃ w,
    RegionLRU_write 1%nat "a" (JNum 111) None geo_world = Ok (tt, w) ∧
    sys_ok w [0; 1; 2]%nat ∧
    timers w !! 2%nat = Some (Timer.mk 2%nat "a" 60000 0) ∧
    Timer.obj (Timer.mk 2%nat "a" 60000 0) ∈ [0; 1; 2]%nat ∧
    ∃ w',
      fire 2%nat w = Ok (tt, w') ∧ sys_ok w' [0; 1; 2]%nat ∧
      is_Some (index_val w (Timer.obj (Timer.mk 2%nat "a" 60000 0))
                 (Timer.key (Timer.mk 2%nat "a" 60000 0))) ∧
      index_val w' (Timer.obj (Timer.mk 2%nat "a" 60000 0))
        (Timer.key (Timer.mk 2%nat "a" 60000 0)) = None ∧
      ∀ c, c ∈ [0; 1; 2]%nat → c ≠ Timer.obj (Timer.mk 2%nat "a" 60000 0) →
           same_view w w' c ∧ ∀ k, index_val w' c k = index_val w c k.
Proof.
  destruct geo_after_write as (w & Hex & G & Ht & _).
  exists w. split; [exact Hex|]. split; [exact (geo_sys _ _ _ _ G)|].
  split; [exact Ht|]. split; [compute_done|].
  apply (expiry_is_local w [0; 1; 2]%nat 2%nat (Timer.mk 2%nat "a" 60000 0)
           (geo_sys _ _ _ _ G) Ht).
  compute_done.
Defined.



(** ** Leaving a deployment *)







(** ** Joining a deployment *)





(** ** [validate] *)

Lemma charCode_dot : charCode dot = 46.
Proof. reflexivity. Qed.

Lemma string_length_app (a b : string) :
  String.length (a +:+ b) = (String.length a + String.length b)%nat.
Proof. induction a as [|c a IH]; simpl; [done | by rewrite IH]. Qed.

(** The loop over a string of digits followed by [rest]. *)
Lemma validate_loop_digits len (d : string) :
  ∀ i rest vArr fd cur,
    all_digits d = true → d ≠ EmptyString →
    validate_loop len i (d +:+ rest) vArr fd cur
    = validate_loop len (i + Z.of_nat (String.length d)) rest vArr false
        (number_from cur d).
Proof.
  induction d as [|c d IH]; intros i rest vArr fd cur Hd Hne; [done|].
  simpl in Hd. apply andb_prop in Hd as [Hc Hd].
  simpl. assert ((charCode c =? 46) = false) as ->.
  { apply Z.eqb_neq. apply andb_prop in Hc as [H1 H2]. lia. }
  rewrite Hc. destruct d as [|c' d'].
  - simpl. f_equal; lia.
  - rewrite IH by done. f_equal; simpl String.length; lia.
Qed.

(** The loop over a well-formed rest: a numeral, then numerals after dots. *)
Lemma validate_loop_parts len (ps : list string) :
  ∀ i p vArr fd cur,
    numeral p → Forall numeral ps → 0 ≤ i →
    i + Z.of_nat (String.length (p +:+ dotted ps)) = len →
    validate_loop len i (p +:+ dotted ps) vArr fd cur
    = inr (vArr ++ number_from cur p :: map number ps).
Proof.
  induction ps as [|q ps IH]; intros i p vArr fd cur [Hne Hd] Hps Hi Hlen.
  - rewrite validate_loop_digits by done. done.
  - apply list.Forall_cons in Hps as [Hq Hps].
    rewrite validate_loop_digits by done.
    rewrite string_length_app in Hlen. simpl in Hlen.
    assert (0 < Z.of_nat (String.length p)).
    { destruct p; [done | simpl; lia]. }
    assert (0 < Z.of_nat (String.length (q +:+ dotted ps))).
    { destruct Hq as [Hq _]. destruct q; [done | simpl; lia]. }
    cbn [dotted validate_loop]. rewrite charCode_dot.
    change (46 =? 46) with true. cbv iota.
    destruct (Z.eqb_spec (i + Z.of_nat (String.length p)) 0) as [E|_]; [lia|].
    destruct (Z.eqb_spec (i + Z.of_nat (String.length p)) (len - 1)) as [E|_]; [lia|].
    cbn [orb]. rewrite IH; try done; try lia.
    by rewrite <- app_assoc.
Qed.

(** What the loop has read when it returns an array. *)
Lemma validate_loop_inv len (s : string) :
  ∀ i vArr fd cur ns,
    validate_loop len i s vArr fd cur = inr ns →
    0 ≤ i → i + Z.of_nat (String.length s) = len →
    ∃ d ps,
      all_digits d = true ∧ Forall numeral ps ∧ s = d +:+ dotted ps ∧
      ns = vArr ++ number_from cur d :: map number ps ∧
      (d = EmptyString → s = EmptyString ∨ (fd = false ∧ i ≠ 0)).
Proof.
  induction s as [|c s IH]; intros i vArr fd cur ns H Hi Hlen.
  - injection H as <-. exists EmptyString, []. split_and!; try done. by left.
  - simpl in H, Hlen. destruct (Z.eqb_spec (charCode c) 46) as [Hc|Hc].
    + destruct fd; [done|].
      destruct (Z.eqb_spec i 0) as [|Hi0]; [done|].
      destruct (Z.eqb_spec i (len - 1)) as [|Hil]; [done|].
      simpl in H.
      destruct (IH _ _ _ _ _ H ltac:(lia) ltac:(lia))
        as (d & ps & Hd & Hps & -> & -> & Hempty).
      assert (c = dot) as ->.
      { rewrite <- (Ascii.ascii_nat_embedding c). unfold dot. f_equal.
        apply Nat2Z.inj. exact Hc. }
      exists EmptyString, (d :: ps). split_and!; try done.
      * apply list.Forall_cons. split; [|done]. split; [|done].
        intros ->. destruct Hempty as [E | [E _]]; [done | | done].
        rewrite E in Hlen. simpl in Hlen. lia.
      * rewrite <- app_assoc. done.
      * intros _. by right.
    + destruct ((48 <=? charCode c) && (charCode c <=? 57)) eqn:Hdig; [|done].
      destruct (IH _ _ _ _ _ H ltac:(lia) ltac:(lia))
        as (d & ps & Hd & Hps & -> & -> & _).
      exists (String c d), ps. split_and!; try done.
      simpl. by rewrite Hdig, Hd.
Qed.

Lemma validate_inr_inv (v : jsval) (ns : list Z) :
  validate v = inr ns →
  ∃ p ps, numeral p ∧ Forall numeral ps ∧
          v = JStr (p +:+ dotted ps) ∧ ns = number p :: map number ps.
Proof.
  destruct v as [| | |s| |]; try done. unfold validate.
  destruct (Z.eqb_spec (Z.of_nat (String.length s)) 0) as [|Hne]; [done|].
  intros H.
  destruct (validate_loop_inv _ _ _ _ _ _ _ H ltac:(lia) ltac:(lia))
    as (d & ps & Hd & Hps & -> & -> & Hempty).
  exists d, ps. split_and!; try done. split; [|done].
  intros E. destruct (Hempty E) as [E' | [_ E']]; [|done].
  rewrite E' in Hne. done.
Qed.

Lemma validate_inr_intro (p : string) (ps : list string) :
  numeral p → Forall numeral ps →
  validate (JStr (p +:+ dotted ps)) = inr (number p :: map number ps).
Proof.
  intros Hp Hps. unfold validate.
  assert (0 < Z.of_nat (String.length (p +:+ dotted ps))).
  { rewrite string_length_app. destruct Hp as [Hp _].
    destruct p; [done | simpl; lia]. }
  destruct (Z.eqb_spec (Z.of_nat (String.length (p +:+ dotted ps))) 0); [lia|].
  by rewrite validate_loop_parts.
Qed.


(** ** The errors of [validate] *)

Lemma string_app_assoc (a b c : string) : (a +:+ b) +:+ c = a +:+ (b +:+ c).
Proof.
  induction a as [|x a IH]; [done|].
  change (String x ((a +:+ b) +:+ c) = String x (a +:+ (b +:+ c))).
  by rewrite IH.
Qed.

Lemma string_app_nil_r (a : string) : a +:+ EmptyString = a.
Proof.
  induction a as [|x a IH]; [done|].
  change (String x (a +:+ EmptyString) = String x a). by rewrite IH.
Qed.

Lemma all_digits_or_dots_app (a b : string) :
  all_digits_or_dots (a +:+ b) = all_digits_or_dots a && all_digits_or_dots b.
Proof.
  induction a as [|x a IH]; [done|].
  change (all_digits_or_dots (String x (a +:+ b))
          = all_digits_or_dots (String x a) && all_digits_or_dots b).
  simpl. rewrite IH. by rewrite andb_assoc.
Qed.

Lemma validate_loop_error len (s : string) :
  ∀ pre vArr fd cur e,
    validate_loop len (Z.of_nat (String.length pre)) s vArr fd cur = inl e →
    Z.of_nat (String.length pre) + Z.of_nat (String.length s) = len →
    (fd = true → ∃ a, pre = a +:+ String dot EmptyString) →
    all_digits_or_dots pre = true →
    offence (pre +:+ s) e.
Proof.
  induction s as [|c s IH]; intros pre vArr fd cur e H Hlen Hfd Hpre; [done|].
  assert (pre +:+ String c s = (pre +:+ String c EmptyString) +:+ s) as Hsplit.
  { by rewrite string_app_assoc. }
  assert (Z.of_nat (String.length (pre +:+ String c EmptyString))
          = Z.of_nat (String.length pre) + 1) as Hl.
  { rewrite string_length_app. simpl. lia. }
  simpl in H, Hlen. destruct (Z.eqb_spec (charCode c) 46) as [Hc|Hc].
  - assert (c = dot) as ->.
    { rewrite <- (Ascii.ascii_nat_embedding c). unfold dot. f_equal.
      apply Nat2Z.inj. exact Hc. }
    destruct fd.
    + injection H as <-. destruct (Hfd eq_refl) as (a & ->).
      exists a, s. split.
      * by rewrite string_app_assoc.
      * rewrite string_length_app. simpl. lia.
    + destruct (Z.eqb_spec (Z.of_nat (String.length pre)) 0) as [E0|E0].
      { injection H as <-. left. exists s. destruct pre; [done | simpl in E0; lia]. }
      destruct (Z.eqb_spec (Z.of_nat (String.length pre)) (len - 1)) as [El|El].
      { injection H as <-. right. exists pre. destruct s; [done | simpl in Hlen; lia]. }
      simpl in H. rewrite <- Hl in H. rewrite Hsplit.
      apply (IH _ _ _ _ _ H); [lia | by exists pre |].
      rewrite all_digits_or_dots_app, Hpre. reflexivity.
  - destruct ((48 <=? charCode c) && (charCode c <=? 57)) eqn:Hdig.
    + rewrite <- Hl in H. rewrite Hsplit.
      apply (IH _ _ _ _ _ H); [lia | done |].
      rewrite all_digits_or_dots_app, Hpre. simpl.
      rewrite Hdig. by rewrite orb_true_r.
    + injection H as <-. exists pre, c, s. split_and!; try done.
      intros [H1 H2]. apply andb_false_iff in Hdig as [Hd | Hd].
      * apply Z.leb_gt in Hd. lia.
      * apply Z.leb_gt in Hd. lia.
Qed.

(** X17.  Every error of [validate] names an offence its input commits:
    the empty string; two dots next to each other, the second at the
    position reported; a dot as the first or the last character; or, at
    the position reported, the first character that is neither a digit
    nor a dot.  An input that is a string is never reported as not being
    one. *)
Theorem validate_error_names_offence (s : string) (e : InvalidInputError) :
  validate (JStr s) = inl e → offence s e.
Proof.
  unfold validate.
  destruct (Z.eqb_spec (Z.of_nat (String.length s)) 0) as [E|E].
  - intros [= <-]. destruct s; [done | simpl in E; lia].
  - intros H.
    apply (validate_loop_error (Z.of_nat (String.length s)) s EmptyString
             [] false 0 e); try done.
Qed.

Lemma validate_error_names_offence_witness :
  validate (JStr "1..2") = inl (TwoDots 2) ∧ offence "1..2" (TwoDots 2).
Proof.
  split; [reflexivity|].
  apply (validate_error_names_offence "1..2" (TwoDots 2)). reflexivity.
Defined.

(** ** [q2] *)

Lemma number_from_nonneg (d : string) :
  ∀ acc, 0 ≤ acc → all_digits d = true → 0 ≤ number_from acc d.
Proof.
  induction d as [|c d IH]; intros acc Hacc Hd; [done|].
  simpl in Hd. apply andb_prop in Hd as [Hc Hd].
  apply andb_prop in Hc as [H1 H2]. simpl. apply IH; [lia | done].
Qed.

Lemma validate_nonneg v ns : validate v = inr ns → Forall (λ x, 0 ≤ x) ns.
Proof.
  intros H. apply validate_inr_inv in H as (p & ps & [_ Hp] & Hps & _ & ->).
  apply list.Forall_cons. split.
  - by apply number_from_nonneg.
  - change (map number ps) with (number <$> ps). apply Forall_fmap.
    eapply list.Forall_impl; [exact Hps|].
    intros d [_ Hd]. by apply number_from_nonneg.
Qed.

(** The three equations of the comparison. *)
Lemma q2_compare_cons x y a b :
  q2_compare (x :: a) (y :: b)
  = if x >? y then 1 else if y >? x then -1 else q2_compare a b.
Proof.
  unfold q2_compare. simpl first_difference.
  destruct (x >? y); [done|]. destruct (y >? x); done.
Qed.

Lemma q2_compare_nil_l b :
  q2_compare [] b = if extra_nonzero 0 b then -1 else 0.
Proof. destruct b; reflexivity. Qed.

Lemma q2_compare_nil_r a :
  q2_compare a [] = if extra_nonzero 0 a then 1 else 0.
Proof. destruct a; reflexivity. Qed.

Lemma extra_nonzero_false l :
  extra_nonzero 0 l = false → ∀ i, component l i = 0.
Proof.
  unfold extra_nonzero. rewrite drop_0. induction l as [|x l IH]; intros H i.
  - done.
  - simpl in H. apply orb_false_elim in H as [Hx Hl].
    destruct i as [|i]; simpl.
    + apply negb_false_iff in Hx. by apply Z.eqb_eq in Hx.
    + by apply IH.
Qed.

Lemma extra_nonzero_true l :
  Forall (λ x, 0 ≤ x) l → extra_nonzero 0 l = true →
  ∃ i, (∀ j, (j < i)%nat → component l j = 0) ∧ 0 < component l i.
Proof.
  unfold extra_nonzero. rewrite drop_0. induction l as [|x l IH]; intros Hl H.
  - done.
  - apply list.Forall_cons in Hl as [Hx Hl]. simpl in H.
    destruct (Z.eqb_spec x 0) as [-> | Hne].
    + simpl in H. destruct (IH Hl H) as (i & Hlt & Hi).
      exists (S i). split; [|done]. intros [|j] Hj; [done|].
      apply Hlt. lia.
    + exists 0%nat. split; [intros j Hj; lia|]. unfold component. simpl. lia.
Qed.

(** The comparison orders versions by their components. *)
Lemma q2_compare_spec a :
  ∀ b, Forall (λ x, 0 ≤ x) a → Forall (λ x, 0 ≤ x) b →
       (q2_compare a b = -1 ∧ older a b) ∨
       (q2_compare a b = 0 ∧ same_version a b) ∨
       (q2_compare a b = 1 ∧ older b a).
Proof.
  induction a as [|x a IH]; intros b Ha Hb.
  - rewrite q2_compare_nil_l. destruct (extra_nonzero 0 b) eqn:E.
    + left. split; [done|]. destruct (extra_nonzero_true _ Hb E) as (i & Hlt & Hi).
      exists i. split.
      * intros j Hj. rewrite (Hlt j Hj). by destruct j.
      * by destruct i.
    + right; left. split; [done|]. intros i.
      rewrite (extra_nonzero_false _ E). by destruct i.
  - destruct b as [|y b].
    + rewrite q2_compare_nil_r. destruct (extra_nonzero 0 (x :: a)) eqn:E.
      * right; right. split; [done|].
        destruct (extra_nonzero_true _ Ha E) as (i & Hlt & Hi).
        exists i. split.
        -- intros j Hj. rewrite (Hlt j Hj). by destruct j.
        -- by destruct i.
      * right; left. split; [done|]. intros i.
        rewrite (extra_nonzero_false _ E). by destruct i.
    + apply list.Forall_cons in Ha as [Hx Ha].
      apply list.Forall_cons in Hb as [Hy Hb].
      rewrite q2_compare_cons.
      destruct (Z.gtb_spec x y) as [Hxy|Hxy].
      * right; right. split; [done|]. exists 0%nat.
        split; [intros j Hj; lia|]. unfold component. simpl. lia.
      * destruct (Z.gtb_spec y x) as [Hyx|Hyx].
        -- left. split; [done|]. exists 0%nat.
           split; [intros j Hj; lia|]. unfold component. simpl. lia.
        -- assert (x = y) as -> by lia.
           destruct (IH b Ha Hb) as [[E O] | [[E O] | [E O]]].
           ++ left. split; [done|]. destruct O as (i & Hlt & Hi).
              exists (S i). split; [|done]. intros [|j] Hj; [done|].
              apply Hlt. lia.
           ++ right; left. split; [done|]. intros [|i]; [done|]. apply O.
           ++ right; right. split; [done|]. destruct O as (i & Hlt & Hi).
              exists (S i). split; [|done]. intros [|j] Hj; [done|].
              apply Hlt. lia.
Qed.

(** The order of versions by components. *)
Lemma older_irrefl a b : older a b → same_version a b → False.
Proof. intros (i & _ & Hi) Hs. specialize (Hs i). lia. Qed.

Lemma same_version_sym a b : same_version a b → same_version b a.
Proof. intros H i. by rewrite (H i). Qed.

Lemma same_version_trans a b c :
  same_version a b → same_version b c → same_version a c.
Proof. intros H1 H2 i. by rewrite (H1 i). Qed.

Lemma older_asym a b : older a b → older b a → False.
Proof.
  intros (i & Hi & Hlt) (j & Hj & Hlt').
  destruct (Nat.lt_trichotomy i j) as [H | [-> | H]].
  - specialize (Hj i H). lia.
  - lia.
  - specialize (Hi j H). lia.
Qed.

Lemma older_trans a b c : older a b → older b c → older a c.
Proof.
  intros (i & Hi & Hlt) (j & Hj & Hlt').
  destruct (Nat.lt_trichotomy i j) as [H | [-> | H]].
  - exists i. split.
    + intros k Hk. rewrite (Hi k Hk). apply Hj. lia.
    + rewrite <- (Hj i H). done.
  - exists j. split.
    + intros k Hk. rewrite (Hi k Hk). by apply Hj.
    + lia.
  - exists j. split.
    + intros k Hk. rewrite (Hi k ltac:(lia)). by apply Hj.
    + rewrite (Hi j H). done.
Qed.

Lemma older_same_l a b c : same_version a b → older b c → older a c.
Proof.
  intros Hs (i & Hi & Hlt). exists i. split.
  - intros j Hj. rewrite (Hs j). by apply Hi.
  - by rewrite (Hs i).
Qed.

Lemma older_same_r a b c : older a b → same_version b c → older a c.
Proof.
  intros (i & Hi & Hlt) Hs. exists i. split.
  - intros j Hj. rewrite <- (Hs j). by apply Hi.
  - by rewrite <- (Hs i).
Qed.

Lemma q2_inr_inv v1 v2 r :
  q2 v1 v2 = inr r →
  ∃ a b, validate v1 = inr a ∧ validate v2 = inr b ∧ r = q2_compare a b ∧
         Forall (λ x, 0 ≤ x) a ∧ Forall (λ x, 0 ≤ x) b.
Proof.
  unfold q2. destruct (validate v1) as [e|a] eqn:E1; [done|].
  destruct (validate v2) as [e|b] eqn:E2; [done|].
  intros [= <-]. exists a, b. split_and!; try done.
  - by eapply validate_nonneg.
  - by eapply validate_nonneg.
Qed.



(** X19.  Swapping the arguments of [q2] negates its result. *)
Theorem q2_antisymmetric (v1 v2 : jsval) (r : Z) :
  q2 v1 v2 = inr r → q2 v2 v1 = inr (- r).
Proof.
  intros H. apply q2_inr_inv in H as (a & b & H1 & H2 & -> & Ha & Hb).
  unfold q2. rewrite H2, H1. f_equal.
  destruct (q2_compare_spec a b Ha Hb) as [[E O] | [[E O] | [E O]]];
    destruct (q2_compare_spec b a Hb Ha) as [[E' O'] | [[E' O'] | [E' O']]];
    rewrite E, E'; try done; exfalso;
    eauto using older_asym, older_irrefl, same_version_sym.
Qed.

Lemma q2_antisymmetric_witness :
  q2 (JStr "1.2") (JStr "1.10") = inr (-1) ∧
  q2 (JStr "1.10") (JStr "1.2") = inr (- -1).
Proof.
  split; [reflexivity|].
  apply (q2_antisymmetric (JStr "1.2") (JStr "1.10") (-1)). reflexivity.
Defined.

(** X20.  [q2] is transitive: when it finds the first version not after
    the second and the second not after the third, it finds the first not
    after the third, and equal to it only if all three are equal. *)
Theorem q2_transitive (v1 v2 v3 : jsval) (r12 r23 : Z) :
  q2 v1 v2 = inr r12 → q2 v2 v3 = inr r23 → r12 ≤ 0 → r23 ≤ 0 →
  ∃ r13, q2 v1 v3 = inr r13 ∧ r13 ≤ 0 ∧ (r13 = 0 → r12 = 0 ∧ r23 = 0).
Proof.
  intros H12 H23 L12 L23.
  apply q2_inr_inv in H12 as (a & b & H1 & H2 & -> & Ha & Hb).
  apply q2_inr_inv in H23 as (b' & c & H2' & H3 & -> & _ & Hc).
  assert (b' = b) as -> by congruence.
  exists (q2_compare a c). split; [unfold q2; by rewrite H1, H3|].
  destruct (q2_compare_spec a b Ha Hb) as [[E O] | [[E O] | [E O]]];
    [| |lia];
    (destruct (q2_compare_spec b c Hb Hc) as [[E' O'] | [[E' O'] | [E' O']]];
     [| |lia]);
    destruct (q2_compare_spec a c Ha Hc) as [[F P] | [[F P] | [F P]]];
    rewrite ?E, ?E', F; try (split; [lia | intros; lia]); exfalso;
    eauto 6 using older_asym, older_irrefl, older_trans, older_same_l,
      older_same_r, same_version_sym, same_version_trans.
Qed.

Lemma q2_transitive_witness :
  q2 (JStr "1.2") (JStr "1.10") = inr (-1) ∧
  q2 (JStr "1.10") (JStr "1.10.0") = inr 0 ∧ -1 ≤ 0 ∧ 0 ≤ 0 ∧
  ∃ r13, q2 (JStr "1.2") (JStr "1.10.0") = inr r13 ∧ r13 ≤ 0 ∧
         (r13 = 0 → -1 = 0 ∧ 0 = 0).
Proof.
  split; [reflexivity|]. split; [reflexivity|]. split; [lia|]. split; [lia|].
  apply (q2_transitive (JStr "1.2") (JStr "1.10") (JStr "1.10.0") (-1) 0);
    [reflexivity | reflexivity | lia | lia].
Defined.

Lemma dotted_app (ps qs : list string) :
  dotted (ps ++ qs) = dotted ps +:+ dotted qs.
Proof.
  induction ps as [|p ps IH]; [done|].
  change (String dot (p +:+ dotted (ps ++ qs))
          = String dot ((p +:+ dotted ps) +:+ dotted qs)).
  by rewrite IH, string_app_assoc.
Qed.

Lemma extra_nonzero_zeros (z : list Z) :
  Forall (λ x, x = 0) z → extra_nonzero 0 z = false.
Proof.
  unfold extra_nonzero. rewrite drop_0. induction 1 as [|x z -> _ IH]; [done|].
  simpl. exact IH.
Qed.

Lemma q2_compare_app_zeros (a z : list Z) :
  Forall (λ x, x = 0) z → q2_compare (a ++ z) a = 0.
Proof.
  intros Hz. induction a as [|x a IH].
  - rewrite q2_compare_nil_r. simpl. by rewrite extra_nonzero_zeros.
  - simpl. rewrite q2_compare_cons.
    destruct (Z.gtb_spec x x) as [H|_]; [lia | done].
Qed.

(** X21.  Components that are zero at the end of a version do not count:
    a version [validate] accepts compares equal to itself with any number
    of numerals denoting zero added after it, each after a dot. *)
Theorem q2_ignores_trailing_zeros (s : string) (ns : list Z)
    (zs : list string) :
  validate (JStr s) = inr ns →
  Forall (λ z, numeral z ∧ number z = 0) zs →
  q2 (JStr (s +:+ dotted zs)) (JStr s) = inr 0.
Proof.
  intros H Hzs. pose proof H as H'.
  apply validate_inr_inv in H' as (p & ps & Hp & Hps & [= ->] & ->).
  unfold q2. rewrite H, string_app_assoc, <- dotted_app.
  rewrite validate_inr_intro; [|done|].
  2:{ apply Forall_app. split; [done|].
      eapply list.Forall_impl; [exact Hzs|]. by intros z [Hz _]. }
  f_equal. rewrite map_app.
  apply (q2_compare_app_zeros (number p :: map number ps)).
  change (map number zs) with (number <$> zs). apply Forall_fmap.
  eapply list.Forall_impl; [exact Hzs|]. by intros z [_ Hz].
Qed.

Lemma q2_ignores_trailing_zeros_witness :
  validate (JStr "1.1") = inr [1; 1] ∧
  Forall (λ z, numeral z ∧ number z = 0) ["0"%string; "00"%string] ∧
  q2 (JStr ("1.1" +:+ dotted ["0"%string; "00"%string])) (JStr "1.1") = inr 0.
Proof.
  split; [reflexivity|].
  assert (Forall (λ z, numeral z ∧ number z = 0) ["0"%string; "00"%string]) as Hz.
  { repeat constructor; done. }
  split; [exact Hz|].
  apply (q2_ignores_trailing_zeros "1.1" [1; 1] ["0"%string; "00"%string]);
    [reflexivity | exact Hz].
Defined.
